(** * FullScanEngine: the multi-source scan engine of [fullscan_cli.py]

    The file [fullscan_cli.py] holds two versions of the class
    [FullScanEngine]: the first (lines 16-122) always runs the word tokenizer
    and syllabifies each word with a character loop; the second
    (lines 243-337) has a [syllable_mode] flag and syllabifies with a regular
    expression.  Both share [ingest], [scan_complete], [dump] and the metric
    queries word for word.

    Python strings are modelled as [string] over the code points 0..255;
    dictionaries as [gmap]; a [KeyError] or [IndexError] as [None]. *)

From Stdlib Require Import QArith Ascii.
From stdpp Require Import gmap strings list fin_maps.

Local Open Scope nat_scope.

(** ** Python string primitives *)

Module Py.

(** [c in s] for a one-character [c]. *)
Fixpoint char_in (c : ascii) (s : string) : bool :=
  match s with
  | EmptyString => false
  | String d s' => if decide (c = d) then true else char_in c s'
  end.

(** Truth value of a string: [if s]. *)
Definition truthy (s : string) : bool :=
  match s with EmptyString => false | String _ _ => true end.

Definition code (c : ascii) : N := N_of_ascii c.

Definition between (lo hi : N) (c : ascii) : bool :=
  ((lo <=? code c) && (code c <=? hi))%N.

(** [str.isspace] on the code points 0..255: TAB..CR, FS..US and the
    space, NEL (0x85) and the no-break space (0xA0). *)
Definition isspace (c : ascii) : bool :=
  between 9 13 c || between 28 32 c || between 133 133 c
  || between 160 160 c.

Fixpoint lstrip (s : string) : string :=
  match s with
  | EmptyString => EmptyString
  | String c s' => if isspace c then lstrip s' else s
  end.

Fixpoint rstrip (s : string) : string :=
  match s with
  | EmptyString => EmptyString
  | String c s' =>
      match rstrip s' with
      | EmptyString => if isspace c then EmptyString else String c EmptyString
      | r => String c r
      end
  end.

(** [s.strip()] *)
Definition strip (s : string) : string := rstrip (lstrip s).

(** [s.split(sep)] for a one-character separator: always at least one
    piece, empty pieces are kept. *)
Fixpoint split (sep : ascii) (s : string) : list string :=
  match s with
  | EmptyString => [EmptyString]
  | String c s' =>
      if decide (c = sep) then EmptyString :: split sep s'
      else match split sep s' with
           | piece :: pieces => String c piece :: pieces
           | [] => [String c EmptyString]
           end
  end.

(** [sep.join(l)] *)
Fixpoint join (sep : string) (l : list string) : string :=
  match l with
  | [] => EmptyString
  | [x] => x
  | x :: l' => x +:+ sep +:+ join sep l'
  end.

(** [l[i]] with Python's negative indices; [None] is [IndexError]. *)
Definition index {A} (l : list A) (i : Z) : option A :=
  if (0 <=? i)%Z then l !! Z.to_nat i
  else if (- Z.of_nat (length l) <=? i)%Z
       then l !! Z.to_nat (Z.of_nat (length l) + i)
       else None.

End Py.

(** ** The fragment of [re] the engine uses

    Every pattern of the file is a sequence of character classes, each under
    [+] or [*].  Quantifiers are greedy and give characters back on failure,
    as the backtracking matcher of [re] does. *)

Module Re.

Definition charclass := ascii -> bool.

Inductive quant := Star | Plus.

Definition atom : Type := charclass * quant.

Definition least (q : quant) : nat :=
  match q with Star => 0 | Plus => 1 end.

(** Length of the longest prefix of [s] inside the class. *)
Fixpoint run (c : charclass) (s : string) : nat :=
  match s with
  | EmptyString => 0
  | String a s' => if c a then S (run c s') else 0
  end.

Fixpoint take (n : nat) (s : string) : string :=
  match n, s with
  | S n', String a s' => String a (take n' s')
  | _, _ => EmptyString
  end.

Fixpoint drop (n : nat) (s : string) : string :=
  match n, s with
  | S n', String _ s' => drop n' s'
  | _, _ => s
  end.

(** Try the counts [lo + extra], [lo + extra - 1], ..., [lo], the
    largest first. *)
Fixpoint backtrack {R} (k : nat -> option R) (lo extra : nat) : option R :=
  match k (lo + extra) with
  | Some r => Some r
  | None =>
      match extra with
      | 0 => None
      | S extra' => backtrack k lo extra'
      end
  end.

(** Match the atoms at the start of [s]; the result is the text taken by
    each atom, in order, and what is left of [s]. *)
Fixpoint match_atoms (p : list atom) (s : string)
  : option (list string * string) :=
  match p with
  | [] => Some ([], s)
  | (c, q) :: p' =>
      let n := run c s in
      if n <? least q then None
      else backtrack
             (fun k =>
                match match_atoms p' (drop k s) with
                | Some (gs, rest) => Some (take k s :: gs, rest)
                | None => None
                end)
             (least q) (n - least q)
  end.

(** Text of a whole match. *)
Definition whole (gs : list string) : string := Py.join EmptyString gs.

(** [re.findall(p, s)] for a pattern without groups: scan left to right,
    resume after each match, move one character on where nothing matches.
    [skip] counts the characters of the last match still to be passed. *)
Fixpoint findall_from (p : list atom) (skip : nat) (s : string)
  : list string :=
  match skip, s with
  | S k, String _ s' => findall_from p k s'
  | S _, EmptyString => []
  | 0, _ =>
      match match_atoms p s, s with
      | Some (gs, _), String _ s' =>
          whole gs :: findall_from p (String.length (whole gs) - 1) s'
      | Some (gs, _), EmptyString => [whole gs]
      | None, String _ s' => findall_from p 0 s'
      | None, EmptyString => []
      end
  end.

Definition findall (p : list atom) (s : string) : list string :=
  findall_from p 0 s.

(** Character classes of the patterns. *)

(** [\w] on the code points 0..255: digits, letters, the underscore and
    the alphanumeric characters of Latin-1. *)
Definition word (c : ascii) : bool :=
  Py.between 48 57 c || Py.between 65 90 c || Py.between 95 95 c
  || Py.between 97 122 c || Py.between 170 170 c || Py.between 178 179 c
  || Py.between 181 181 c || Py.between 185 186 c || Py.between 188 190 c
  || Py.between 192 214 c || Py.between 216 246 c || Py.between 248 255 c.

(** [[\w']] *)
Definition word_or_quote (c : ascii) : bool :=
  word c || Py.char_in c "'".

(** [[.,!?;:]] *)
Definition punct (c : ascii) : bool := Py.char_in c ".,!?;:".

(** [[aeiou]] under [re.I]: on the code points 0..255 the five vowels,
    small and capital. *)
Definition vowel_i (c : ascii) : bool := Py.char_in c "aeiouAEIOU".

(** [[^aeiou]] under [re.I] *)
Definition non_vowel_i (c : ascii) : bool := negb (vowel_i c).

(** The pattern [[\w']+[.,!?;:]*]; [re.match] uses it with one group
    around each of its two atoms. *)
Definition word_punct : list atom := [(word_or_quote, Plus); (punct, Star)].

(** [[\w']+] *)
Definition word_only : list atom := [(word_or_quote, Plus)].

(** [[^aeiou]*[aeiou]+[^aeiou]*] *)
Definition vowel_group : list atom :=
  [(non_vowel_i, Star); (vowel_i, Plus); (non_vowel_i, Star)].

End Re.

(** ** First version of the class (lines 16-122) *)

Module V1.

Definition vowels : string := "aeiouyAEIOUY".

(** The loop of [syllabify] (lines 65-71). *)
Fixpoint syllabify_loop (chars : string) (out : list string) (syl : string)
  : list string :=
  match chars with
  | EmptyString => if Py.truthy syl then out ++ [syl] else out
  | String char rest =>
      let syl := syl +:+ String char EmptyString in
      if Py.char_in char vowels && Py.truthy syl
      then syllabify_loop rest (out ++ [syl]) EmptyString
      else syllabify_loop rest out syl
  end.

Definition syllabify (word : string) : list string :=
  if negb (Py.truthy word) then [] else syllabify_loop word [] EmptyString.

(** The loop of [tokenize_syllabic] (lines 48-55); a word that [re.match]
    rejects is passed over. *)
Fixpoint tokenize_loop (words : list string) (out : list string)
  : list string :=
  match words with
  | [] => out
  | w :: words' =>
      match Re.match_atoms Re.word_punct w with
      | Some ([base; punc], _) =>
          let syls := syllabify base in
          let token := Py.join EmptyString syls +:+ punc in
          tokenize_loop words' (out ++ [token])
      | _ => tokenize_loop words' out
      end
  end.

Definition tokenize_syllabic (text : string) : list string :=
  tokenize_loop (Re.findall Re.word_punct text) [].

End V1.

(** ** Second version of the class (lines 243-337) *)

Module V2.

Definition syllabify (word : string) : list string :=
  Re.findall Re.vowel_group word.

Fixpoint syllable_loop (words : list string) (out : list string)
  : list string :=
  match words with
  | [] => out
  | w :: words' => syllable_loop words' (out ++ syllabify w)
  end.

Fixpoint word_loop (words : list string) (out : list string)
  : list string :=
  match words with
  | [] => out
  | w :: words' =>
      match Re.match_atoms Re.word_punct w with
      | Some ([base; punc], _) => word_loop words' (out ++ [base +:+ punc])
      | _ => word_loop words' out
      end
  end.

Definition tokenize_syllabic (syllable_mode : bool) (text : string)
  : list string :=
  if syllable_mode
  then syllable_loop (Re.findall Re.word_only text) []
  else word_loop (Re.findall Re.word_punct text) [].

End V2.

(** ** The syllable branch over the syllabifier it is given

    [tokenize_syllabic] of the second version calls [self.syllabify]
    (line 280); the method it finds there is a parameter here, so that the
    branch of lines 275-282 can run over the character loop of lines 58-72
    as well as over the regular expression of line 273. *)

Module Policy.

Section Syllabifier.

Variable syllabify : string -> list string.

Fixpoint syllable_loop (words : list string) (out : list string)
  : list string :=
  match words with
  | [] => out
  | w :: words' => syllable_loop words' (out ++ syllabify w)
  end.

Definition tokenize_syllabic (syllable_mode : bool) (text : string)
  : list string :=
  if syllable_mode
  then syllable_loop (Re.findall Re.word_only text) []
  else V2.word_loop (Re.findall Re.word_punct text) [].

End Syllabifier.

End Policy.

(** ** State and methods shared by both versions *)

Record engine := Engine {
  sources : gmap string (list string);
  context_maps : gmap string (gmap string nat);
  miss_counts : gmap string nat;
  clusters : gmap string (list (list string))
}.

(** [__init__]: four empty dictionaries. *)
Definition new_engine : engine := Engine ∅ ∅ ∅ ∅.

Definition with_sources (e : engine) (v : gmap string (list string)) :=
  Engine v (context_maps e) (miss_counts e) (clusters e).

Definition with_context_maps (e : engine) (v : gmap string (gmap string nat)) :=
  Engine (sources e) v (miss_counts e) (clusters e).

Definition with_miss_counts (e : engine) (v : gmap string nat) :=
  Engine (sources e) (context_maps e) v (clusters e).

Definition with_clusters (e : engine) (v : gmap string (list (list string))) :=
  Engine (sources e) (context_maps e) (miss_counts e) v.

(** Truth value of a list: [if l]. *)
Definition nonempty {A} (l : list A) : bool :=
  match l with [] => false | _ :: _ => true end.

Section FullScanEngine.

(** The tokenizer the instance is bound to: [self.tokenize_syllabic]. *)
Variable tokenize_syllabic : string -> list string.

(** The inner loop of [ingest]: [for i, tk in enumerate(tokens)]. *)
Fixpoint index_loop (source : string) (start i : nat)
    (tokens cluster : list string) (e : engine)
  : option (list string * engine) :=
  match tokens with
  | [] => Some (cluster, e)
  | tk :: tokens' =>
      let cluster := cluster ++ [tk] in
      context_map ← context_maps e !! source;
      let e :=
        match context_map !! tk with
        | None =>
            with_context_maps e
              (<[source := <[tk := start + i]> context_map]> (context_maps e))
        | Some _ => e
        end in
      index_loop source start (S i) tokens' cluster e
  end.

(** One turn of the outer loop of [ingest]. *)
Definition ingest_line (source : string) (e : engine) (line : string)
  : option engine :=
  let tokens := tokenize_syllabic line in
  full_text ← sources e !! source;
  let start := length full_text in
  let e := with_sources e (<[source := full_text ++ tokens]> (sources e)) in
  '(cluster, e) ← index_loop source start 0 tokens [] e;
  if nonempty cluster
  then cl ← clusters e !! source;
       Some (with_clusters e (<[source := cl ++ [cluster]]> (clusters e)))
  else Some e.

Fixpoint line_loop (source : string) (lines : list string) (e : engine)
  : option engine :=
  match lines with
  | [] => Some e
  | line :: lines' => e' ← ingest_line source e line; line_loop source lines' e'
  end.

Definition ingest (e : engine) (source raw : string) : option engine :=
  let e :=
    match sources e !! source with
    | None =>
        Engine (<[source := []]> (sources e))
               (<[source := ∅]> (context_maps e))
               (<[source := 0]> (miss_counts e))
               (<[source := []]> (clusters e))
    | Some _ => e
    end in
  let lines := Py.split "010" (Py.strip raw) in
  line_loop source lines e.

(** [sum(1 for tok in full_text if tok not in context_map)] *)
Fixpoint count_missing (full_text : list string) (context_map : gmap string nat)
  : nat :=
  match full_text with
  | [] => 0
  | tok :: rest =>
      match context_map !! tok with
      | None => 1 + count_missing rest context_map
      | Some _ => count_missing rest context_map
      end
  end.

(** The result and the engine with the stored miss count.  [length - 1] is
    computed past the guard, where the list is not empty. *)
Definition scan_complete (e : engine) (source : string)
  : option (bool * engine) :=
  match sources e !! source with
  | None => Some (false, e)
  | Some full_text =>
      if negb (nonempty full_text) then Some (false, e)
      else
        context_map ← context_maps e !! source;
        first ← Py.index full_text 0;
        last ← Py.index full_text (-1);
        let length := length full_text in
        let missing := count_missing full_text context_map in
        let e := with_miss_counts e (<[source := missing]> (miss_counts e)) in
        Some (bool_decide (missing = 0)
              && bool_decide (context_map !! first = Some 0)
              && bool_decide (context_map !! last = Some (length - 1)),
              e)
  end.

Definition dump (e : engine) (source : string) : option string :=
  match sources e !! source with
  | None => Some EmptyString
  | Some full_text =>
      if negb (nonempty full_text) then Some EmptyString
      else
        first ← Py.index full_text 0;
        mid ← Py.index full_text (Z.of_nat (length full_text) / 2);
        last ← Py.index full_text (-1);
        Some (Py.join " " [first; mid; last])
  end.

Definition token_count (e : engine) (source : string) : nat :=
  length (default [] (sources e !! source)).

(** [sum(len(t) for t in tokens)] *)
Definition total_len (tokens : list string) : nat :=
  foldr (fun t acc => String.length t + acc) 0 tokens.

(** The quotient is kept as an exact rational; Python rounds it to a
    double.  The literal [0.0] of the empty case is the rational zero. *)
Definition avg_syllable_length (e : engine) (source : string) : Q :=
  let tokens := default [] (sources e !! source) in
  if negb (nonempty tokens) then 0%Q
  else (inject_Z (Z.of_nat (total_len tokens))
        / inject_Z (Z.of_nat (length tokens)))%Q.

Definition cluster_count (e : engine) (source : string) : nat :=
  length (default [] (clusters e !! source)).

(** A run of [ingest] calls on one engine, as the loop of [main] makes
    them: each call is a source key and its raw text. *)
Fixpoint ingest_all (e : engine) (calls : list (string * string))
  : option engine :=
  match calls with
  | [] => Some e
  | (source, raw) :: calls' => e' ← ingest e source raw; ingest_all e' calls'
  end.

(** The tokens one [ingest] appends: those of every line, in order. *)
Definition tokens_of (raw : string) : list string :=
  flat_map tokenize_syllabic (Py.split "010" (Py.strip raw)).

End FullScanEngine.

(** ** Notions used to state the properties *)

(** No character of [w] occurs in [set]. *)
Fixpoint no_char_of (set : string) (w : string) : bool :=
  match w with
  | EmptyString => true
  | String c w' => negb (Py.char_in c set) && no_char_of set w'
  end.

(** Position of the first occurrence of [t] in [l]. *)
Fixpoint first_pos (t : string) (l : list string) : option nat :=
  match l with
  | [] => None
  | x :: l' => if decide (x = t) then Some 0 else S <$> first_pos t l'
  end.

(** What the inner loop of [ingest] makes of one index, the tokens standing
    at the positions [pos], [pos + 1], ... of the stream. *)
Fixpoint index_fold (pos : nat) (tokens : list string) (ctx : gmap string nat)
  : gmap string nat :=
  match tokens with
  | [] => ctx
  | tk :: tokens' =>
      index_fold (S pos) tokens'
        (match ctx !! tk with None => <[tk := pos]> ctx | Some _ => ctx end)
  end.

(** The index of a source agrees with its token stream. *)
Definition index_ok (toks : list string) (ctx : gmap string nat) : Prop :=
  forall t, ctx !! t = first_pos t toks.

(** The dictionaries of an engine fit together: every known source has an
    index that agrees with its stream, and a cluster list; an unknown source
    has no index. *)
Record engine_ok (e : engine) : Prop := {
  ok_index : forall s toks, sources e !! s = Some toks ->
      exists ctx, context_maps e !! s = Some ctx /\ index_ok toks ctx;
  ok_clusters : forall s toks, sources e !! s = Some toks ->
      is_Some (clusters e !! s);
  ok_unknown : forall s, sources e !! s = None -> context_maps e !! s = None
}.

(** Every entry of an index of [e] is still there, unchanged, in [e']. *)
Definition index_kept (e e' : engine) : Prop :=
  forall s ctx t p, context_maps e !! s = Some ctx -> ctx !! t = Some p ->
    exists ctx', context_maps e' !! s = Some ctx' /\ ctx' !! t = Some p.

(** The lines one [ingest] walks through. *)
Definition lines_of (raw : string) : list string :=
  Py.split "010" (Py.strip raw).

(** The clusters one [ingest] appends: one for each line with a token. *)
Fixpoint clusters_of_lines (tokenize : string -> list string)
    (lines : list string) : list (list string) :=
  match lines with
  | [] => []
  | line :: lines' =>
      (if nonempty (tokenize line) then [tokenize line] else [])
      ++ clusters_of_lines tokenize lines'
  end.

(** ** The other methods and functions of the file *)

(** [cluster_summary]: the first three tokens of each of the first five
    clusters, joined by a space. *)
Definition cluster_summary (e : engine) (source : string) : list string :=
  let cls := default [] (clusters e !! source) in
  map (fun c => Py.join " " (take 3 c)) (take 5 cls).

(** The dictionary comprehension of [verify_all], one key after the other;
    every [scan_complete] works on the engine the one before has left. *)
Fixpoint verify_loop (keys : list string) (e : engine) (out : gmap string bool)
  : option (gmap string bool * engine) :=
  match keys with
  | [] => Some (out, e)
  | source :: keys' =>
      '(complete, e') ← scan_complete e source;
      verify_loop keys' e' (<[source := complete]> out)
  end.

(** [verify_all]: the keys of [self.sources]; the result is a dictionary, and
    the order of the keys does not show in it. *)
Definition verify_all (e : engine) : option (gmap string bool * engine) :=
  verify_loop (map_to_list (sources e)).*1 e ∅.

(** The calls a user of the class makes on one engine. *)
Inductive call :=
| Ingest (source raw : string)
| ScanComplete (source : string)
| VerifyAll.

Section Calls.

Variable tokenize_syllabic : string -> list string.

Definition do_call (e : engine) (c : call) : option engine :=
  match c with
  | Ingest source raw => ingest tokenize_syllabic e source raw
  | ScanComplete source => snd <$> scan_complete e source
  | VerifyAll => snd <$> verify_all e
  end.

Fixpoint run_calls (e : engine) (cs : list call) : option engine :=
  match cs with
  | [] => Some e
  | c :: cs' => e' ← do_call e c; run_calls e' cs'
  end.

End Calls.

(** [sum(engine.miss_counts.values())] of [write_log] and [main]. *)
Definition total_missing (e : engine) : nat :=
  foldr Nat.add 0 (map_to_list (miss_counts e)).*2.

(** [sum(1 for complete in results.values() if not complete)] *)
Definition total_failures (results : gmap string bool) : nat :=
  length (filter (fun complete => complete = false) (map_to_list results).*2).

(** What the loop of [write_log] (lines 408-418, and lines 184-194 of the
    first [main]) works out for one source before it writes the line; the
    formatting of the line itself is left out.  [None] is the [KeyError] or
    [IndexError] of one of the look-ups. *)
Record log_row := LogRow {
  row_clusters : nat;
  row_preview : list string;
  row_first : string;
  row_last : string;
  row_checksum : string;
  row_tokens : nat;
  row_avg : Q;
  row_missing : option nat
}.

Definition log_row_of (e : engine) (src : string) (complete : bool)
  : option log_row :=
  let clusters_cnt := cluster_count e src in
  let preview := cluster_summary e src in
  full_text ← sources e !! src;
  first_tok ← Py.index full_text 0;
  last_tok ← Py.index full_text (-1);
  checksum ← dump e src;
  let tokens := token_count e src in
  let avg_len := avg_syllable_length e src in
  missing ← (if complete then Some None
             else n ← miss_counts e !! src; Some (Some n));
  Some (LogRow clusters_cnt preview first_tok last_tok checksum tokens
          avg_len missing).

(** ** Log rotation

    The file system is a finite map from paths to the bytes of regular
    files; every system call succeeds, and [os.rename] replaces a file that
    is in its way.  The clock reading, already formatted, and [gzip] are
    given from outside. *)

Section Rotation.

Variable gzip : string -> string.

Definition rotate_log_file (fs : gmap string string) (now : string)
    (log_path : string) (max_size : nat) (compress : bool)
  : gmap string string * string :=
  match fs !! log_path with
  | Some content =>
      if max_size <? String.length content
      then
        let rotated_path := log_path +:+ "." +:+ now +:+ ".bak" in
        let fs := <[rotated_path := content]> (delete log_path fs) in
        if compress
        then match fs !! rotated_path with
             | Some bytes =>
                 let fs := <[rotated_path +:+ ".gz" := gzip bytes]> fs in
                 (delete rotated_path fs, log_path)
             | None => (fs, log_path)
             end
        else (fs, log_path)
      else (fs, log_path)
  | None => (fs, log_path)
  end.

End Rotation.

(** ** Further notions *)

(** Every character of [s] is in the class. *)
Fixpoint all_in (c : ascii -> bool) (s : string) : bool :=
  match s with
  | EmptyString => true
  | String a s' => c a && all_in c s'
  end.

(** A syllable as the loop of the first version cuts it: at least one
    character, and no vowel before the last one. *)
Definition loop_syllable (x : string) : Prop :=
  exists body c,
    x = body +:+ String c EmptyString /\
    no_char_of V1.vowels body = true.

(** A token as the word mode builds it: word characters or apostrophes, at
    least one, and then only punctuation. *)
Definition word_token (tok : string) : Prop :=
  exists base punc,
    tok = base +:+ punc /\
    base <> EmptyString /\
    all_in Re.word_or_quote base = true /\
    all_in Re.punct punc = true.

(** The cluster list and the miss count of every known source: the clusters
    are not empty and make up the stream, the stored count is 0, and only
    known sources have clusters or a count. *)
Record engine_full (e : engine) : Prop := {
  full_ok : engine_ok e;
  full_clusters : forall s toks, sources e !! s = Some toks ->
      exists cl, clusters e !! s = Some cl /\ concat cl = toks /\
                 Forall (fun c => c <> []) cl;
  full_miss : forall s,
      miss_counts e !! s = (fun _ => 0) <$> sources e !! s;
  full_unknown : forall s, sources e !! s = None -> clusters e !! s = None
}.

(** ** Strings *)

Section StringFacts.

Lemma app_cons_l (c : ascii) (s t : string) :
  String c s +:+ t = String c (s +:+ t).
Proof. reflexivity. Qed.

Lemma app_empty_l (s : string) : EmptyString +:+ s = s.
Proof. reflexivity. Qed.

Lemma app_empty_r (s : string) : s +:+ EmptyString = s.
Proof.
  induction s as [|c s IH]; [reflexivity|].
  rewrite app_cons_l, IH. reflexivity.
Qed.

Lemma app_assoc_str (s t u : string) : (s +:+ t) +:+ u = s +:+ (t +:+ u).
Proof.
  induction s as [|c s IH]; [reflexivity|].
  rewrite !app_cons_l, IH. reflexivity.
Qed.

Lemma truthy_app_char (s : string) (c : ascii) :
  Py.truthy (s +:+ String c EmptyString) = true.
Proof. destruct s; reflexivity. Qed.

Lemma join_empty_cons (x : string) (l : list string) :
  Py.join EmptyString (x :: l) = x +:+ Py.join EmptyString l.
Proof.
  destruct l as [|y l]; simpl.
  - symmetry. apply app_empty_r.
  - reflexivity.
Qed.

Lemma join_empty_app (l1 l2 : list string) :
  Py.join EmptyString (l1 ++ l2)
  = Py.join EmptyString l1 +:+ Py.join EmptyString l2.
Proof.
  induction l1 as [|x l1 IH]; [reflexivity|].
  rewrite <- app_comm_cons, !join_empty_cons, IH, app_assoc_str.
  reflexivity.
Qed.

Lemma join_empty_singleton (x : string) : Py.join EmptyString [x] = x.
Proof. reflexivity. Qed.

End StringFacts.

(** ** The syllabifier of the first version *)

Module V1Facts.

Lemma syllabify_loop_join (chars : string) (out : list string) (syl : string) :
  Py.join EmptyString (V1.syllabify_loop chars out syl)
  = Py.join EmptyString out +:+ syl +:+ chars.
Proof.
  revert out syl.
  induction chars as [|c chars IH]; intros out syl;
    cbn [V1.syllabify_loop].
  - destruct syl as [|d syl]; cbn [Py.truthy].
    + rewrite app_empty_r. reflexivity.
    + rewrite join_empty_app, join_empty_singleton, app_empty_r.
      reflexivity.
  - rewrite truthy_app_char, andb_true_r.
    destruct (Py.char_in c V1.vowels).
    + rewrite IH, join_empty_app, join_empty_singleton, app_empty_l.
      rewrite !app_assoc_str. reflexivity.
    + rewrite IH, !app_assoc_str. reflexivity.
Qed.

(** Joining the syllables gives the word back, for every word. *)
Lemma syllabify_join (w : string) :
  Py.join EmptyString (V1.syllabify w) = w.
Proof.
  unfold V1.syllabify.
  destruct w as [|c w]; [reflexivity|].
  cbn [Py.truthy negb].
  rewrite syllabify_loop_join. reflexivity.
Qed.

Lemma syllabify_loop_no_vowel (chars : string) (out : list string)
    (syl : string) :
  no_char_of V1.vowels chars = true ->
  V1.syllabify_loop chars out syl
  = if Py.truthy (syl +:+ chars) then out ++ [syl +:+ chars] else out.
Proof.
  revert syl.
  induction chars as [|c chars IH]; intros syl Hnv;
    cbn [V1.syllabify_loop].
  - rewrite app_empty_r. reflexivity.
  - cbn [no_char_of] in Hnv. apply andb_true_iff in Hnv as [Hc Hnv].
    apply negb_true_iff in Hc. rewrite Hc. cbn [andb].
    rewrite IH by exact Hnv.
    rewrite app_assoc_str. reflexivity.
Qed.

Lemma syllabify_keeps_vowelless (w : string) :
  w <> EmptyString -> no_char_of V1.vowels w = true -> V1.syllabify w = [w].
Proof.
  intros Hne Hnv. unfold V1.syllabify.
  destruct w as [|c w]; [congruence|].
  cbn [Py.truthy negb].
  rewrite syllabify_loop_no_vowel by exact Hnv.
  reflexivity.
Qed.

End V1Facts.

(** ** The two word tokenizers agree *)

Lemma tokenize_loop_word_loop (words out : list string) :
  V1.tokenize_loop words out = V2.word_loop words out.
Proof.
  revert out.
  induction words as [|w words IH]; intros out; [reflexivity|].
  cbn [V1.tokenize_loop V2.word_loop].
  destruct (Re.match_atoms Re.word_punct w) as [[gs rest]|]; [|apply IH].
  destruct gs as [|base [|punc [|g gs]]]; try apply IH.
  rewrite V1Facts.syllabify_join. apply IH.
Qed.

(** ** The first-occurrence index *)

Section IndexFacts.

Lemma first_pos_Some (t : string) (l : list string) (p : nat) :
  first_pos t l = Some p <->
  l !! p = Some t /\ forall j, j < p -> l !! j <> Some t.
Proof.
  revert p. induction l as [|x l IH]; intros p; cbn [first_pos].
  - split; [discriminate|]. intros [H _]. destruct p; discriminate.
  - destruct (decide (x = t)) as [->|Hne].
    + split.
      * intros [= <-]. split; [reflexivity|]. intros j Hj. lia.
      * intros [Hp Hmin]. destruct p as [|p]; [reflexivity|].
        exfalso. apply (Hmin 0); [lia|reflexivity].
    + destruct p as [|p].
      * split.
        -- destruct (first_pos t l); discriminate.
        -- intros [Hp _]. cbn in Hp. congruence.
      * transitivity (first_pos t l = Some p).
        -- destruct (first_pos t l); cbn; split; congruence.
        -- rewrite IH. split; intros [Hp Hmin]; (split; [exact Hp|]).
           ++ intros [|j] Hj; cbn; [congruence|]. apply Hmin. lia.
           ++ intros j Hj. apply (Hmin (S j)). lia.
Qed.

Lemma first_pos_None (t : string) (l : list string) :
  first_pos t l = None <-> t ∉ l.
Proof.
  induction l as [|x l IH]; cbn [first_pos].
  - split; [intros _; apply not_elem_of_nil|reflexivity].
  - destruct (decide (x = t)) as [->|Hne].
    + split; [discriminate|]. intros H. exfalso. apply H. left.
    + rewrite not_elem_of_cons.
      destruct (first_pos t l); cbn.
      * split; [discriminate|]. intros [_ H]. apply IH in H. discriminate.
      * split; [|reflexivity]. intros _. split; [congruence|].
        apply IH. reflexivity.
Qed.

Lemma first_pos_elem (t : string) (l : list string) :
  t ∈ l -> exists p, first_pos t l = Some p.
Proof.
  intros Hin. destruct (first_pos t l) as [p|] eqn:Hp; [eauto|].
  apply first_pos_None in Hp. contradiction.
Qed.

Lemma first_pos_snoc (t x : string) (l : list string) :
  first_pos t (l ++ [x])
  = match first_pos t l with
    | Some p => Some p
    | None => if decide (x = t) then Some (length l) else None
    end.
Proof.
  induction l as [|y l IH]; cbn [first_pos app length].
  - destruct (decide (x = t)); reflexivity.
  - destruct (decide (y = t)); [reflexivity|].
    rewrite IH. destruct (first_pos t l); cbn; [reflexivity|].
    destruct (decide (x = t)); reflexivity.
Qed.

Lemma index_fold_app (pos : nat) (a b : list string) (ctx : gmap string nat) :
  index_fold pos (a ++ b) ctx
  = index_fold (pos + length a) b (index_fold pos a ctx).
Proof.
  revert pos ctx. induction a as [|x a IH]; intros pos ctx; cbn.
  - rewrite Nat.add_0_r. reflexivity.
  - rewrite IH. f_equal. lia.
Qed.

(** The loop keeps the index in step with the stream. *)
Lemma index_fold_ok (pre toks : list string) (ctx : gmap string nat) :
  index_ok pre ctx ->
  index_ok (pre ++ toks) (index_fold (length pre) toks ctx).
Proof.
  revert pre ctx. induction toks as [|tk toks IH]; intros pre ctx Hok.
  - rewrite app_nil_r. exact Hok.
  - cbn [index_fold].
    replace (pre ++ tk :: toks) with ((pre ++ [tk]) ++ toks)
      by (rewrite <- app_assoc; reflexivity).
    replace (S (length pre)) with (length (pre ++ [tk]))
      by (rewrite length_app; cbn; lia).
    apply IH. intros t. rewrite first_pos_snoc, <- (Hok t).
    destruct (ctx !! tk) as [q|] eqn:Htk.
    + destruct (ctx !! t) as [p|] eqn:Ht; [reflexivity|].
      destruct (decide (tk = t)) as [->|]; [congruence|reflexivity].
    + destruct (decide (tk = t)) as [->|Hne].
      * rewrite lookup_insert_eq, Htk. reflexivity.
      * rewrite lookup_insert_ne by exact Hne.
        destruct (ctx !! t); reflexivity.
Qed.

(** The loop never changes an entry that is there. *)
Lemma index_fold_keeps (pos : nat) (toks : list string)
    (ctx : gmap string nat) (t : string) (p : nat) :
  ctx !! t = Some p -> index_fold pos toks ctx !! t = Some p.
Proof.
  revert pos ctx. induction toks as [|tk toks IH]; intros pos ctx Ht;
    [exact Ht|].
  cbn [index_fold]. apply IH.
  destruct (ctx !! tk) eqn:Htk; [exact Ht|].
  rewrite lookup_insert_ne; [exact Ht|]. congruence.
Qed.

Lemma index_ok_empty : index_ok [] ∅.
Proof. intros t. apply lookup_empty. Qed.

End IndexFacts.

(** ** What [ingest] does to an engine *)

Section IngestFacts.

Variable tokenize_syllabic : string -> list string.

Lemma engine_eta (e : engine) :
  Engine (sources e) (context_maps e) (miss_counts e) (clusters e) = e.
Proof. destruct e; reflexivity. Qed.

Lemma index_loop_spec (source : string) (start : nat) (tokens : list string) :
  forall (i : nat) (cluster : list string) (e : engine)
         (ctx : gmap string nat),
    context_maps e !! source = Some ctx ->
    index_loop source start i tokens cluster e
    = Some (cluster ++ tokens,
            with_context_maps e
              (<[source := index_fold (start + i) tokens ctx]>
                 (context_maps e))).
Proof.
  induction tokens as [|tk tokens IH]; intros i cluster e ctx Hctx.
  - cbn [index_loop index_fold]. rewrite app_nil_r.
    rewrite insert_id by exact Hctx.
    unfold with_context_maps. rewrite engine_eta. reflexivity.
  - cbn [index_loop index_fold]. rewrite Hctx. cbn [mbind option_bind].
    destruct (ctx !! tk) as [q|] eqn:Htk.
    + rewrite (IH (S i) _ e ctx Hctx).
      rewrite <- app_assoc, Nat.add_succ_r. reflexivity.
    + erewrite IH; [|cbn; apply lookup_insert_eq].
      cbn. rewrite insert_insert_eq.
      rewrite <- app_assoc, Nat.add_succ_r. reflexivity.
Qed.

Lemma ingest_line_spec (source line : string) (e : engine)
    (full : list string) (ctx : gmap string nat) (cl : list (list string)) :
  sources e !! source = Some full ->
  context_maps e !! source = Some ctx ->
  clusters e !! source = Some cl ->
  ingest_line tokenize_syllabic source e line
  = Some (Engine
            (<[source := full ++ tokenize_syllabic line]> (sources e))
            (<[source := index_fold (length full) (tokenize_syllabic line) ctx]>
               (context_maps e))
            (miss_counts e)
            (<[source := cl ++ clusters_of_lines tokenize_syllabic [line]]>
               (clusters e))).
Proof.
  intros Hs Hc Hcl. unfold ingest_line. rewrite Hs. cbn [mbind option_bind].
  erewrite index_loop_spec by (cbn; exact Hc).
  cbn [mbind option_bind app]. rewrite Nat.add_0_r.
  cbn [clusters_of_lines]. rewrite app_nil_r.
  destruct (nonempty (tokenize_syllabic line)); cbn.
  - rewrite Hcl. reflexivity.
  - rewrite app_nil_r, (insert_id (clusters e)) by exact Hcl. reflexivity.
Qed.

Lemma line_loop_spec (source : string) (lines : list string) :
  forall (e : engine) (full : list string) (ctx : gmap string nat)
         (cl : list (list string)),
    sources e !! source = Some full ->
    context_maps e !! source = Some ctx ->
    clusters e !! source = Some cl ->
    line_loop tokenize_syllabic source lines e
    = Some (Engine
              (<[source := full ++ flat_map tokenize_syllabic lines]>
                 (sources e))
              (<[source := index_fold (length full)
                              (flat_map tokenize_syllabic lines) ctx]>
                 (context_maps e))
              (miss_counts e)
              (<[source := cl ++ clusters_of_lines tokenize_syllabic lines]>
                 (clusters e))).
Proof.
  induction lines as [|line lines IH]; intros e full ctx cl Hs Hc Hcl.
  - cbn. rewrite !app_nil_r, !insert_id by assumption.
    rewrite engine_eta. reflexivity.
  - cbn [line_loop]. erewrite ingest_line_spec by eassumption.
    cbn [mbind option_bind].
    erewrite IH; [|cbn; apply lookup_insert_eq..].
    cbn [sources context_maps miss_counts clusters].
    rewrite !insert_insert_eq. cbn [flat_map clusters_of_lines].
    rewrite index_fold_app, length_app, !app_nil_r, <- !app_assoc.
    reflexivity.
Qed.

(** [ingest] into a source the engine has not seen. *)
Lemma ingest_fresh (e : engine) (source raw : string) :
  sources e !! source = None ->
  ingest tokenize_syllabic e source raw
  = Some (Engine
            (<[source := tokens_of tokenize_syllabic raw]> (sources e))
            (<[source := index_fold 0 (tokens_of tokenize_syllabic raw) ∅]> (context_maps e))
            (<[source := 0]> (miss_counts e))
            (<[source := clusters_of_lines tokenize_syllabic (lines_of raw)]>
               (clusters e))).
Proof.
  intros Hs. unfold ingest. rewrite Hs.
  erewrite line_loop_spec; [|cbn; apply lookup_insert_eq..].
  cbn. rewrite !insert_insert_eq. reflexivity.
Qed.

(** [ingest] into a known source. *)
Lemma ingest_known (e : engine) (source raw : string)
    (full : list string) (ctx : gmap string nat) (cl : list (list string)) :
  sources e !! source = Some full ->
  context_maps e !! source = Some ctx ->
  clusters e !! source = Some cl ->
  ingest tokenize_syllabic e source raw
  = Some (Engine
            (<[source := full ++ tokens_of tokenize_syllabic raw]> (sources e))
            (<[source := index_fold (length full) (tokens_of tokenize_syllabic raw) ctx]>
               (context_maps e))
            (miss_counts e)
            (<[source := cl ++ clusters_of_lines tokenize_syllabic (lines_of raw)]>
               (clusters e))).
Proof.
  intros Hs Hc Hcl. unfold ingest. rewrite Hs.
  apply line_loop_spec; assumption.
Qed.

End IngestFacts.

(** ** Engines reached by [ingest] calls *)

Section EngineFacts.

Variable tokenize_syllabic : string -> list string.

Lemma engine_ok_new : engine_ok new_engine.
Proof.
  split; cbn.
  - intros s toks H. rewrite lookup_empty in H. discriminate.
  - intros s toks H. rewrite lookup_empty in H. discriminate.
  - intros s _. apply lookup_empty.
Qed.

Lemma index_kept_refl (e : engine) : index_kept e e.
Proof. intros s ctx t p Hc Ht. eauto. Qed.

Lemma index_kept_trans (e1 e2 e3 : engine) :
  index_kept e1 e2 -> index_kept e2 e3 -> index_kept e1 e3.
Proof.
  intros H12 H23 s ctx t p Hc Ht.
  destruct (H12 s ctx t p Hc Ht) as (ctx2 & Hc2 & Ht2).
  exact (H23 s ctx2 t p Hc2 Ht2).
Qed.

(** The two ways [ingest] can go on an engine whose dictionaries fit
    together; it raises in neither. *)
Lemma ingest_cases (e : engine) (source raw : string) :
  engine_ok e ->
  (sources e !! source = None /\
   ingest tokenize_syllabic e source raw
   = Some (Engine
             (<[source := tokens_of tokenize_syllabic raw]> (sources e))
             (<[source := index_fold 0 (tokens_of tokenize_syllabic raw) ∅]>
                (context_maps e))
             (<[source := 0]> (miss_counts e))
             (<[source := clusters_of_lines tokenize_syllabic (lines_of raw)]>
                (clusters e))))
  \/
  (exists full ctx cl,
      sources e !! source = Some full /\
      context_maps e !! source = Some ctx /\
      index_ok full ctx /\
      ingest tokenize_syllabic e source raw
      = Some (Engine
                (<[source := full ++ tokens_of tokenize_syllabic raw]>
                   (sources e))
                (<[source := index_fold (length full)
                                (tokens_of tokenize_syllabic raw) ctx]>
                   (context_maps e))
                (miss_counts e)
                (<[source := cl ++ clusters_of_lines tokenize_syllabic
                                     (lines_of raw)]>
                   (clusters e)))).
Proof.
  intros [Hindex Hcl _].
  destruct (sources e !! source) as [full|] eqn:Hs.
  - right.
    destruct (Hindex _ _ Hs) as (ctx & Hc & Hok).
    destruct (Hcl _ _ Hs) as [cl Hcls].
    exists full, ctx, cl. repeat split; try assumption.
    apply ingest_known; assumption.
  - left. split; [reflexivity|]. apply ingest_fresh. exact Hs.
Qed.

Lemma ingest_ok (e : engine) (source raw : string) :
  engine_ok e ->
  exists e', ingest tokenize_syllabic e source raw = Some e' /\
    engine_ok e' /\
    index_kept e e' /\
    sources e' !! source
    = Some (default [] (sources e !! source)
            ++ tokens_of tokenize_syllabic raw) /\
    (forall s, s <> source -> sources e' !! s = sources e !! s).
Proof.
  intros Hok.
  destruct (ingest_cases e source raw Hok)
    as [[Hs ->]|(full & ctx & cl & Hs & Hc & Hi & ->)];
    eexists; (split; [reflexivity|]); destruct Hok as [Hindex Hcl Hun].
  - split; [split|split; [|split]]; cbn [sources context_maps clusters].
    + intros s toks. destruct (decide (source = s)) as [<-|Hne].
      * rewrite !lookup_insert_eq. intros [= <-].
        eexists. split; [reflexivity|].
        apply (index_fold_ok [] _ ∅ index_ok_empty).
      * rewrite !lookup_insert_ne by exact Hne. apply Hindex.
    + intros s toks. destruct (decide (source = s)) as [<-|Hne].
      * rewrite !lookup_insert_eq. eauto.
      * rewrite !lookup_insert_ne by exact Hne. apply Hcl.
    + intros s. destruct (decide (source = s)) as [<-|Hne].
      * rewrite !lookup_insert_eq. discriminate.
      * rewrite !lookup_insert_ne by exact Hne. apply Hun.
    + intros s c t p Hcs Ht. cbn [context_maps].
      destruct (decide (source = s)) as [<-|Hne].
      * rewrite (Hun _ Hs) in Hcs. discriminate.
      * rewrite lookup_insert_ne by exact Hne. eauto.
    + rewrite lookup_insert_eq, Hs. reflexivity.
    + intros s Hne. rewrite lookup_insert_ne by congruence. reflexivity.
  - split; [split|split; [|split]]; cbn [sources context_maps clusters].
    + intros s toks. destruct (decide (source = s)) as [<-|Hne].
      * rewrite !lookup_insert_eq. intros [= <-].
        eexists. split; [reflexivity|].
        apply index_fold_ok. exact Hi.
      * rewrite !lookup_insert_ne by exact Hne. apply Hindex.
    + intros s toks. destruct (decide (source = s)) as [<-|Hne].
      * rewrite !lookup_insert_eq. eauto.
      * rewrite !lookup_insert_ne by exact Hne. apply Hcl.
    + intros s. destruct (decide (source = s)) as [<-|Hne].
      * rewrite !lookup_insert_eq. discriminate.
      * rewrite !lookup_insert_ne by exact Hne. apply Hun.
    + intros s c t p Hcs Ht. cbn [context_maps].
      destruct (decide (source = s)) as [<-|Hne].
      * rewrite lookup_insert_eq. eexists. split; [reflexivity|].
        apply index_fold_keeps. congruence.
      * rewrite lookup_insert_ne by exact Hne. eauto.
    + rewrite lookup_insert_eq, Hs. reflexivity.
    + intros s Hne. rewrite lookup_insert_ne by congruence. reflexivity.
Qed.

Lemma ingest_all_ok (calls : list (string * string)) :
  forall e, engine_ok e ->
    exists e', ingest_all tokenize_syllabic e calls = Some e' /\
      engine_ok e' /\
      index_kept e e' /\
      (forall s, s ∉ calls.*1 -> sources e' !! s = sources e !! s).
Proof.
  induction calls as [|[source raw] calls IH]; intros e Hok.
  - exists e. split; [reflexivity|]. split; [exact Hok|].
    split; [apply index_kept_refl|reflexivity].
  - destruct (ingest_ok e source raw Hok)
      as (e1 & Hing & Hok1 & Hkept1 & _ & Hother).
    destruct (IH e1 Hok1) as (e2 & Hall & Hok2 & Hkept2 & Hrest).
    exists e2. cbn [ingest_all]. rewrite Hing. cbn [mbind option_bind].
    split; [exact Hall|]. split; [exact Hok2|].
    split; [exact (index_kept_trans _ _ _ Hkept1 Hkept2)|].
    intros s Hs. cbn in Hs. apply not_elem_of_cons in Hs as [Hne Hs].
    rewrite (Hrest s Hs). apply Hother. exact Hne.
Qed.

(** A key that no call names is unknown to the engine. *)
Lemma never_ingested_unknown (calls : list (string * string))
    (e : engine) (s : string) :
  ingest_all tokenize_syllabic new_engine calls = Some e ->
  s ∉ calls.*1 ->
  engine_ok e /\ sources e !! s = None.
Proof.
  intros Hall Hs.
  destruct (ingest_all_ok calls new_engine engine_ok_new)
    as (e' & Hall' & Hok & _ & Hrest).
  assert (e' = e) as -> by congruence.
  split; [exact Hok|]. rewrite (Hrest s Hs). apply lookup_empty.
Qed.

End EngineFacts.

(** ** What [scan_complete] computes *)

Section ScanFacts.

Lemma index_first {A} (l : list A) : Py.index l 0 = l !! 0.
Proof. reflexivity. Qed.

Lemma index_last {A} (l : list A) :
  l <> [] -> Py.index l (-1) = l !! (length l - 1).
Proof.
  intros Hne. unfold Py.index. cbn [Z.leb Z.compare].
  destruct l as [|x l]; [congruence|].
  destruct (- Z.of_nat (length (x :: l)) <=? -1)%Z eqn:Hle.
  - f_equal. lia.
  - apply Z.leb_gt in Hle. cbn [length] in Hle. lia.
Qed.

Lemma lookup_last_is_Some {A} (l : list A) :
  l <> [] -> is_Some (l !! (length l - 1)).
Proof.
  intros Hne. apply lookup_lt_is_Some.
  destruct l; [congruence|]. cbn. lia.
Qed.

Lemma count_missing_zero (toks : list string) (ctx : gmap string nat) :
  count_missing toks ctx = 0 <-> forall t, t ∈ toks -> is_Some (ctx !! t).
Proof.
  induction toks as [|x toks IH]; cbn [count_missing].
  - split; [|reflexivity]. intros _ t Ht. inversion Ht.
  - destruct (ctx !! x) as [p|] eqn:Hx.
    + rewrite IH. split.
      * intros H t Ht. apply elem_of_cons in Ht as [->|Ht]; [eauto|].
        apply H. exact Ht.
      * intros H t Ht. apply H. right. exact Ht.
    + split; [discriminate|]. intros H.
      destruct (H x) as [p Hp]; [left|]. congruence.
Qed.

Lemma count_missing_index_ok (toks : list string) (ctx : gmap string nat) :
  index_ok toks ctx -> count_missing toks ctx = 0.
Proof.
  intros Hok. apply count_missing_zero. intros t Ht.
  rewrite (Hok t). destruct (first_pos_elem t toks Ht) as [p ->]. eauto.
Qed.

(** Past the guard, [scan_complete] stores the count and answers with the
    three tests. *)
Lemma scan_complete_known (e : engine) (source : string)
    (toks : list string) (ctx : gmap string nat) :
  sources e !! source = Some toks ->
  toks <> [] ->
  context_maps e !! source = Some ctx ->
  exists first lst,
    toks !! 0 = Some first /\
    toks !! (length toks - 1) = Some lst /\
    scan_complete e source
    = Some (bool_decide (count_missing toks ctx = 0)
            && bool_decide (ctx !! first = Some 0)
            && bool_decide (ctx !! lst = Some (length toks - 1)),
            with_miss_counts e
              (<[source := count_missing toks ctx]> (miss_counts e))).
Proof.
  intros Hs Hne Hc.
  destruct (lookup_last_is_Some toks Hne) as [lst Hlst].
  destruct toks as [|first toks'] eqn:Htoks; [congruence|].
  exists first, lst. split; [reflexivity|]. split; [exact Hlst|].
  unfold scan_complete. rewrite Hs. cbn [nonempty negb].
  rewrite Hc. cbn [mbind option_bind].
  rewrite index_first, index_last by exact Hne.
  rewrite Hlst. reflexivity.
Qed.

End ScanFacts.

(** ** Properties of the engine *)

(** C4: [scan_complete] returns false for an unknown source and for a source
    without tokens; for a source with tokens it returns true exactly when
    every token of the stream is a key of the index, the first token is
    mapped to position 0 and the last token to position [len(tokens) - 1]. *)
Theorem scan_complete_characterised (e : engine) (source : string) :
  (sources e !! source = None -> scan_complete e source = Some (false, e)) /\
  (sources e !! source = Some [] -> scan_complete e source = Some (false, e)) /\
  (forall toks ctx,
      sources e !! source = Some toks ->
      toks <> [] ->
      context_maps e !! source = Some ctx ->
      exists b e',
        scan_complete e source = Some (b, e') /\
        (b = true <->
         (forall t, t ∈ toks -> is_Some (ctx !! t)) /\
         (exists first, toks !! 0 = Some first /\ ctx !! first = Some 0) /\
         (exists lst, toks !! (length toks - 1) = Some lst /\
                      ctx !! lst = Some (length toks - 1)))).
Proof.
  split; [|split].
  - intros Hs. unfold scan_complete. rewrite Hs. reflexivity.
  - intros Hs. unfold scan_complete. rewrite Hs. reflexivity.
  - intros toks ctx Hs Hne Hc.
    destruct (scan_complete_known e source toks ctx Hs Hne Hc)
      as (first & lst & Hfirst & Hlst & ->).
    eexists _, _. split; [reflexivity|].
    rewrite !andb_true_iff, !bool_decide_eq_true, count_missing_zero.
    split.
    + intros [[Hall H0] Hn]. split; [exact Hall|]. split; eauto.
    + intros (Hall & (f & Hf & H0) & (l & Hl & Hn)).
      assert (f = first) as -> by congruence.
      assert (l = lst) as -> by congruence.
      auto.
Qed.

Section EngineProperties.

Variable tokenize_syllabic : string -> list string.

(** One [ingest] into an unseen source, then [scan_complete]: the stored
    miss count is 0, and the answer is true exactly when there is a token
    and the last token stands nowhere earlier in the stream. *)
Lemma fresh_ingest_scan_exact (calls : list (string * string))
    (source raw : string) :
  source ∉ calls.*1 ->
  exists e e1 b e2,
    ingest_all tokenize_syllabic new_engine calls = Some e /\
    ingest tokenize_syllabic e source raw = Some e1 /\
    sources e1 !! source = Some (tokens_of tokenize_syllabic raw) /\
    scan_complete e1 source = Some (b, e2) /\
    miss_counts e2 !! source = Some 0 /\
    (b = true <->
     exists lst,
       last (tokens_of tokenize_syllabic raw) = Some lst /\
       forall j, j < length (tokens_of tokenize_syllabic raw) - 1 ->
                 tokens_of tokenize_syllabic raw !! j <> Some lst).
Proof.
  intros Hfresh.
  destruct (ingest_all_ok tokenize_syllabic calls new_engine engine_ok_new)
    as (e & Hall & Hok & _ & Hrest).
  assert (sources e !! source = None) as Hs.
  { rewrite (Hrest source Hfresh). apply lookup_empty. }
  destruct (ingest_cases tokenize_syllabic e source raw Hok)
    as [[_ Hing]|(full & ? & ? & Hs' & _)]; [|congruence].
  set (toks := tokens_of tokenize_syllabic raw) in *.
  set (ctx := index_fold 0 toks ∅) in *.
  assert (index_ok toks ctx) as Hidx
    by apply (index_fold_ok [] toks ∅ index_ok_empty).
  eexists e, _. 
  destruct (decide (toks = [])) as [Hnil|Hne].
  - exists false. eexists.
    split; [exact Hall|]. split; [exact Hing|].
    split; [cbn; apply lookup_insert_eq|].
    split; [|split].
    + unfold scan_complete. cbn [sources]. rewrite lookup_insert_eq, Hnil.
      reflexivity.
    + cbn. apply lookup_insert_eq.
    + split; [discriminate|]. intros (lst & Hlast & _).
      rewrite Hnil in Hlast. discriminate.
  - lazymatch goal with
    | |- context [ingest _ _ _ _ = Some ?e1] =>
        destruct (scan_complete_known e1 source toks ctx) as
          (first & lst & Hfirst & Hlst & Hscan);
        [cbn; apply lookup_insert_eq | exact Hne
        | cbn; apply lookup_insert_eq | ]
    end.
    eexists _, _.
    split; [exact Hall|]. split; [exact Hing|].
    split; [cbn; apply lookup_insert_eq|].
    split; [exact Hscan|]. split.
    + cbn. rewrite lookup_insert_eq, (count_missing_index_ok _ _ Hidx).
      reflexivity.
    + rewrite (count_missing_index_ok _ _ Hidx).
      rewrite !andb_true_iff, !bool_decide_eq_true, !(Hidx _).
      rewrite last_lookup.
      replace (pred (length toks)) with (length toks - 1) by lia.
      rewrite !first_pos_Some. split.
      * intros [_ [_ Hmin]]. exists lst. split; [exact Hlst|exact Hmin].
      * intros (l & Hl & Hmin). assert (l = lst) as -> by congruence.
        repeat split; try assumption. intros j Hj. lia.
Qed.

(** C1, as the engine has it: after one [ingest] of any raw text into an
    unseen source, the miss count stored for the source once [scan_complete]
    has run is 0; [scan_complete] answers false when the text gives no token,
    and true when it gives at least one token and the last token of the
    stream stands nowhere earlier in it. *)
Theorem fresh_ingest_scan (calls : list (string * string))
    (source raw : string) :
  source ∉ calls.*1 ->
  exists e e1 b e2,
    ingest_all tokenize_syllabic new_engine calls = Some e /\
    ingest tokenize_syllabic e source raw = Some e1 /\
    sources e1 !! source = Some (tokens_of tokenize_syllabic raw) /\
    scan_complete e1 source = Some (b, e2) /\
    miss_counts e2 !! source = Some 0 /\
    (tokens_of tokenize_syllabic raw = [] -> b = false) /\
    (forall lst,
        last (tokens_of tokenize_syllabic raw) = Some lst ->
        (forall j, j < length (tokens_of tokenize_syllabic raw) - 1 ->
                   tokens_of tokenize_syllabic raw !! j <> Some lst) ->
        b = true).
Proof.
  intros Hfresh.
  destruct (fresh_ingest_scan_exact calls source raw Hfresh)
    as (e & e1 & b & e2 & Hall & Hing & Hsrc & Hscan & Hmiss & Hb).
  exists e, e1, b, e2. repeat (split; [assumption|]). split.
  - intros Hnil. destruct b; [|reflexivity].
    destruct (proj1 Hb eq_refl) as (lst & Hlast & _).
    rewrite Hnil in Hlast. discriminate.
  - intros lst Hlast Hmin. apply Hb. eauto.
Qed.

(** C5: after any run of [ingest] calls, the index of every source maps
    each token of the stream to the position of its first occurrence; and
    whatever calls follow, every entry of every index stays as it is. *)
Theorem index_first_occurrence (calls : list (string * string)) :
  exists e,
    ingest_all tokenize_syllabic new_engine calls = Some e /\
    (forall s toks t,
        sources e !! s = Some toks -> t ∈ toks ->
        exists ctx p,
          context_maps e !! s = Some ctx /\
          ctx !! t = Some p /\
          toks !! p = Some t /\
          forall j, j < p -> toks !! j <> Some t) /\
    (forall more,
        exists e',
          ingest_all tokenize_syllabic e more = Some e' /\
          forall s ctx t p,
            context_maps e !! s = Some ctx -> ctx !! t = Some p ->
            exists ctx', context_maps e' !! s = Some ctx' /\
                         ctx' !! t = Some p).
Proof.
  destruct (ingest_all_ok tokenize_syllabic calls new_engine engine_ok_new)
    as (e & Hall & Hok & _ & _).
  exists e. split; [exact Hall|]. split.
  - intros s toks t Hs Ht.
    destruct (ok_index e Hok s toks Hs) as (ctx & Hc & Hidx).
    destruct (first_pos_elem t toks Ht) as [p Hp].
    exists ctx, p. split; [exact Hc|]. rewrite (Hidx t).
    split; [exact Hp|]. apply first_pos_Some. exact Hp.
  - intros more.
    destruct (ingest_all_ok tokenize_syllabic more e Hok)
      as (e' & Hall' & _ & Hkept & _).
    exists e'. split; [exact Hall'|exact Hkept].
Qed.

(** C6: the token count of a source after [ingest] of A and then of B is
    the count after A alone plus the count B gives in an unseen source; that
    count is the number of tokens of the lines of B, which are the stream of
    the unseen source and the end of the stream after A and B. *)
Theorem token_count_additive (calls calls' : list (string * string))
    (source source' A B : string) :
  source' ∉ calls'.*1 ->
  exists e eA eAB e0 eB,
    ingest_all tokenize_syllabic new_engine calls = Some e /\
    ingest tokenize_syllabic e source A = Some eA /\
    ingest tokenize_syllabic eA source B = Some eAB /\
    ingest_all tokenize_syllabic new_engine calls' = Some e0 /\
    ingest tokenize_syllabic e0 source' B = Some eB /\
    sources eB !! source'
    = Some (flat_map tokenize_syllabic (Py.split "010" (Py.strip B))) /\
    token_count eB source'
    = length (flat_map tokenize_syllabic (Py.split "010" (Py.strip B))) /\
    sources eAB !! source
    = Some (default [] (sources eA !! source)
            ++ flat_map tokenize_syllabic (Py.split "010" (Py.strip B))) /\
    token_count eAB source
    = token_count eA source
      + length (flat_map tokenize_syllabic (Py.split "010" (Py.strip B))) /\
    token_count eAB source = token_count eA source + token_count eB source'.
Proof.
  intros Hfresh.
  destruct (ingest_all_ok tokenize_syllabic calls new_engine engine_ok_new)
    as (e & Hall & Hok & _ & _).
  destruct (ingest_ok tokenize_syllabic e source A Hok)
    as (eA & HA & HokA & _ & HsA & _).
  destruct (ingest_ok tokenize_syllabic eA source B HokA)
    as (eAB & HAB & _ & _ & HsAB & _).
  destruct (ingest_all_ok tokenize_syllabic calls' new_engine engine_ok_new)
    as (e0 & Hall0 & Hok0 & _ & Hrest0).
  destruct (ingest_ok tokenize_syllabic e0 source' B Hok0)
    as (eB & HB & _ & _ & HsB & _).
  exists e, eA, eAB, e0, eB. repeat (split; [assumption|]).
  rewrite (Hrest0 source' Hfresh) in HsB.
  cbn [sources new_engine] in HsB. rewrite lookup_empty in HsB.
  unfold tokens_of in HsB, HsAB. cbn in HsB.
  unfold token_count. rewrite HsAB, HsB, HsA. cbn.
  rewrite !length_app.
  split; [reflexivity|]. split; [reflexivity|]. split; [reflexivity|].
  split; reflexivity.
Qed.

(** C7: for a source key that no [ingest] call has named, no query raises:
    [scan_complete] is false, [dump] is the empty string, [token_count] is 0
    and [avg_syllable_length] is 0.0. *)
Theorem unknown_source_defaults (calls : list (string * string))
    (source : string) :
  source ∉ calls.*1 ->
  exists e,
    ingest_all tokenize_syllabic new_engine calls = Some e /\
    scan_complete e source = Some (false, e) /\
    dump e source = Some EmptyString /\
    token_count e source = 0 /\
    avg_syllable_length e source = 0%Q.
Proof.
  intros Hfresh.
  destruct (ingest_all_ok tokenize_syllabic calls new_engine engine_ok_new)
    as (e & Hall & _ & _ & Hrest).
  assert (sources e !! source = None) as Hs.
  { rewrite (Hrest source Hfresh). apply lookup_empty. }
  exists e. split; [exact Hall|].
  unfold scan_complete, dump, token_count, avg_syllable_length.
  rewrite Hs. repeat split.
Qed.

End EngineProperties.

(** ** The regular-expression syllabifier of the second version *)

Module V2Facts.

Lemma run_vowel_no_vowel (w : string) :
  no_char_of "aeiouAEIOU" w = true -> Re.run Re.vowel_i w = 0.
Proof.
  destruct w as [|c w]; [reflexivity|].
  cbn [no_char_of Re.run]. intros H.
  apply andb_true_iff in H as [Hc _]. apply negb_true_iff in Hc.
  unfold Re.vowel_i. rewrite Hc. reflexivity.
Qed.

Lemma no_vowel_drop (k : nat) (w : string) :
  no_char_of "aeiouAEIOU" w = true ->
  no_char_of "aeiouAEIOU" (Re.drop k w) = true.
Proof.
  revert w. induction k as [|k IH]; intros w H.
  - destruct w; exact H.
  - destruct w as [|c w]; [exact H|].
    cbn [Re.drop]. apply IH.
    cbn [no_char_of] in H. apply andb_true_iff in H as [_ H]. exact H.
Qed.

Lemma backtrack_none {R} (k : nat -> option R) (lo extra : nat) :
  (forall n, k n = None) -> Re.backtrack k lo extra = None.
Proof.
  intros Hk. induction extra as [|extra IH]; cbn [Re.backtrack];
    rewrite Hk; [reflexivity|exact IH].
Qed.

(** The pattern needs a vowel: it matches nowhere in a word without one. *)
Lemma vowel_group_no_match (w : string) :
  no_char_of "aeiouAEIOU" w = true ->
  Re.match_atoms Re.vowel_group w = None.
Proof.
  intros H. unfold Re.vowel_group. cbn [Re.match_atoms Re.least].
  cbn [Nat.ltb Nat.leb]. apply backtrack_none. intros n.
  rewrite (run_vowel_no_vowel _ (no_vowel_drop n w H)). reflexivity.
Qed.

(** A word without a, e, i, o, u in either case has no syllable at all. *)
Lemma syllabify_drops_vowelless (w : string) :
  no_char_of "aeiouAEIOU" w = true -> V2.syllabify w = [].
Proof.
  unfold V2.syllabify, Re.findall.
  induction w as [|c w IH]; intros H; cbn [Re.findall_from];
    rewrite (vowel_group_no_match _ H); [reflexivity|].
  apply IH. cbn [no_char_of] in H.
  apply andb_true_iff in H as [_ H]. exact H.
Qed.

(** With a vowel in the word the matches of the pattern tile it, so the
    syllables do join back into the word. *)

Lemma take_drop (n : nat) (s : string) : Re.take n s +:+ Re.drop n s = s.
Proof.
  revert s. induction n as [|n IH]; intros [|a s]; try reflexivity.
  cbn [Re.take Re.drop]. rewrite app_cons_l, IH. reflexivity.
Qed.

Lemma drop_app_length (a b : string) : Re.drop (String.length a) (a +:+ b) = b.
Proof.
  induction a as [|c a IH]; [destruct b; reflexivity|].
  cbn [String.length]. rewrite app_cons_l. cbn [Re.drop]. exact IH.
Qed.

Lemma length_app_str (a b : string) :
  String.length (a +:+ b) = String.length a + String.length b.
Proof.
  induction a as [|c a IH]; [reflexivity|].
  rewrite app_cons_l. cbn [String.length]. rewrite IH. reflexivity.
Qed.

Lemma backtrack_first {R} (k : nat -> option R) (lo extra : nat) (r : R) :
  k (lo + extra) = Some r -> Re.backtrack k lo extra = Some r.
Proof. intros H. destruct extra; cbn [Re.backtrack]; rewrite H; reflexivity. Qed.

(** An atom that can take its longest run, the rest of the pattern matching
    after it, takes it. *)
Lemma match_atoms_greedy (c : Re.charclass) (q : Re.quant)
    (p : list Re.atom) (s : string) (gs : list string) (rest : string) :
  Re.least q <= Re.run c s ->
  Re.match_atoms p (Re.drop (Re.run c s) s) = Some (gs, rest) ->
  Re.match_atoms ((c, q) :: p) s
  = Some (Re.take (Re.run c s) s :: gs, rest).
Proof.
  intros Hle Hm. cbn [Re.match_atoms].
  destruct (Re.run c s <? Re.least q) eqn:Hlt;
    [apply Nat.ltb_lt in Hlt; lia|].
  apply backtrack_first.
  replace (Re.least q + (Re.run c s - Re.least q)) with (Re.run c s) by lia.
  rewrite Hm. reflexivity.
Qed.

(** What is left after the longest run of a class does not start inside it. *)
Lemma drop_run_head (c : Re.charclass) (s : string) :
  match Re.drop (Re.run c s) s with
  | EmptyString => True
  | String a _ => c a = false
  end.
Proof.
  induction s as [|a s IH]; [exact I|].
  cbn [Re.run]. destruct (c a) eqn:Hc; cbn [Re.drop]; [exact IH|exact Hc].
Qed.

Lemma drop_run_no_vowel (s : string) :
  no_char_of "aeiouAEIOU" s = false ->
  exists a t, Re.drop (Re.run Re.non_vowel_i s) s = String a t /\
              Re.vowel_i a = true.
Proof.
  induction s as [|c s IH]; [discriminate|].
  cbn [no_char_of Re.run]. unfold Re.non_vowel_i at 1.
  fold (Re.vowel_i c). destruct (Re.vowel_i c) eqn:Hc; cbn [negb andb].
  - intros _. exists c, s. split; [reflexivity|exact Hc].
  - cbn [Re.drop]. exact IH.
Qed.

Lemma run_head_true (c : Re.charclass) (a : ascii) (t : string) :
  c a = true -> 1 <= Re.run c (String a t).
Proof. intros H. cbn [Re.run]. rewrite H. lia. Qed.

(** The match of the pattern at the start of a text with a vowel: the three
    runs, each as long as it can be. *)
Lemma vowel_group_match (s : string) :
  no_char_of "aeiouAEIOU" s = false ->
  exists g0 g1 g2 rest,
    Re.match_atoms Re.vowel_group s = Some ([g0; g1; g2], rest) /\
    g0 +:+ g1 +:+ g2 +:+ rest = s /\
    1 <= String.length g1 /\
    match rest with
    | EmptyString => True
    | String a _ => Re.vowel_i a = true
    end.
Proof.
  intros Hv.
  destruct (drop_run_no_vowel s Hv) as (a & t & Hdrop & Ha).
  set (n0 := Re.run Re.non_vowel_i s) in *.
  set (s1 := Re.drop n0 s).
  set (n1 := Re.run Re.vowel_i s1).
  set (s2 := Re.drop n1 s1).
  set (n2 := Re.run Re.non_vowel_i s2).
  assert (1 <= n1) as Hn1.
  { unfold n1, s1. rewrite Hdrop. apply run_head_true. exact Ha. }
  exists (Re.take n0 s), (Re.take n1 s1), (Re.take n2 s2), (Re.drop n2 s2).
  split; [|split; [|split]].
  - unfold Re.vowel_group.
    apply match_atoms_greedy; [cbn; lia|]. fold n0. fold s1.
    apply match_atoms_greedy; [exact Hn1|]. fold n1. fold s2.
    apply match_atoms_greedy; [cbn; lia|]. reflexivity.
  - unfold s2, s1. rewrite !take_drop. reflexivity.
  - assert (String.length (Re.take n1 s1 +:+ Re.drop n1 s1)
            = String.length s1) as Hlen by (rewrite take_drop; reflexivity).
    unfold s1 in *. rewrite Hdrop in *. clear -Hn1.
    destruct n1; [lia|]. cbn. lia.
  - pose proof (drop_run_head Re.non_vowel_i s2) as H. fold n2 in H.
    destruct (Re.drop n2 s2) as [|b r]; [exact I|].
    unfold Re.non_vowel_i in H. apply negb_false_iff in H. exact H.
Qed.

Lemma findall_skip (k : nat) (s : string) :
  Re.findall_from Re.vowel_group k s
  = Re.findall_from Re.vowel_group 0 (Re.drop k s).
Proof.
  revert s. induction k as [|k IH]; intros s.
  - destruct s; reflexivity.
  - destruct s as [|a s]; [reflexivity|].
    cbn [Re.findall_from Re.drop]. apply IH.
Qed.

Lemma no_vowel_head (s : string) :
  match s with
  | EmptyString => True
  | String a _ => Re.vowel_i a = true
  end ->
  s = EmptyString \/ no_char_of "aeiouAEIOU" s = false.
Proof.
  destruct s as [|a s]; [left; reflexivity|].
  intros H. right. cbn [no_char_of]. unfold Re.vowel_i in H.
  rewrite H. reflexivity.
Qed.

Lemma syllabify_join_length (n : nat) :
  forall w, String.length w <= n ->
    no_char_of "aeiouAEIOU" w = false ->
    Py.join EmptyString (V2.syllabify w) = w.
Proof.
  unfold V2.syllabify, Re.findall.
  induction n as [|n IH]; intros w Hlen Hv.
  - destruct w; [discriminate|cbn in Hlen; lia].
  - destruct (vowel_group_match w Hv)
      as (g0 & g1 & g2 & rest & Hm & Hw & Hg1 & Hrest).
    destruct w as [|c w]; [discriminate|].
    cbn [Re.findall_from]. rewrite Hm.
    rewrite findall_skip, join_empty_cons.
    assert (Re.whole [g0; g1; g2] = g0 +:+ g1 +:+ g2) as Hwhole.
    { unfold Re.whole. rewrite !join_empty_cons. cbn [Py.join].
      rewrite app_empty_r. reflexivity. }
    rewrite Hwhole.
    assert (1 <= String.length (g0 +:+ g1 +:+ g2)) as Hpos
      by (rewrite !length_app_str; lia).
    assert ((g0 +:+ g1 +:+ g2) +:+ rest = String c w) as Hw'
      by (rewrite !app_assoc_str; exact Hw).
    assert (Re.drop (String.length (g0 +:+ g1 +:+ g2) - 1) w = rest) as ->.
    { transitivity (Re.drop (String.length (g0 +:+ g1 +:+ g2)) (String c w)).
      - destruct (String.length (g0 +:+ g1 +:+ g2)); [lia|].
        cbn [Re.drop]. f_equal. lia.
      - rewrite <- Hw'. apply drop_app_length. }
    assert (String.length rest <= n) as Hlr.
    { assert (String.length (String c w)
              = String.length (g0 +:+ g1 +:+ g2) + String.length rest) as E.
      { rewrite <- Hw'. apply length_app_str. }
      cbn [String.length] in *. lia. }
    destruct (no_vowel_head rest Hrest) as [->|Hrv].
    + cbn [Re.findall_from].
      rewrite (vowel_group_no_match EmptyString eq_refl).
      cbn [Py.join]. rewrite app_empty_r in Hw'. rewrite app_empty_r.
      exact Hw'.
    + rewrite (IH rest Hlr Hrv). exact Hw'.
Qed.

(** For every word with one of a, e, i, o, u in either case the syllables
    of the regular expression join back into the word. *)
Lemma syllabify_join_vowel (w : string) :
  no_char_of "aeiouAEIOU" w = false ->
  Py.join EmptyString (V2.syllabify w) = w.
Proof. apply (syllabify_join_length (String.length w)). lia. Qed.

End V2Facts.

(** ** The two versions side by side *)

(** C10: on every line the tokenizer of the first version, which syllabifies
    each word and joins the syllables again, returns the tokens of the word
    mode of the second version. *)
Theorem word_tokenizers_agree (text : string) :
  V1.tokenize_syllabic text = V2.tokenize_syllabic false text.
Proof.
  unfold V1.tokenize_syllabic, V2.tokenize_syllabic.
  apply tokenize_loop_word_loop.
Qed.

(** C2: joining the syllables is meant to give the word back, and the loop
    of the first version does so for every word; the regular expression of
    the second version returns no syllable for "hmm", so the join is the
    empty string and the word is lost. *)
Theorem syllabify_regex_loses_word :
  V2.syllabify "hmm" = [] /\
  Py.join EmptyString (V2.syllabify "hmm") <> "hmm" /\
  Py.join EmptyString (V1.syllabify "hmm") = "hmm".
Proof.
  split; [|split].
  - vm_compute. reflexivity.
  - vm_compute. discriminate.
  - apply V1Facts.syllabify_join.
Qed.

(** C3: a word without a vowel is meant to give one syllable, the word
    itself, and the loop of the first version does so; the regular expression
    of the second version gives the word "tsk" no syllable at all. *)
Theorem syllabify_regex_no_syllable :
  no_char_of "aeiouyAEIOUY" "tsk" = true /\
  V2.syllabify "tsk" = [] /\
  length (V2.syllabify "tsk") <> 1 /\
  V1.syllabify "tsk" = ["tsk"].
Proof.
  split; [|split; [|split]].
  - reflexivity.
  - apply V2Facts.syllabify_drops_vowelless. reflexivity.
  - rewrite V2Facts.syllabify_drops_vowelless by reflexivity. cbn. lia.
  - apply V1Facts.syllabify_keeps_vowelless; [discriminate|reflexivity].
Qed.

(** ** Scenarios *)

(** C8: in the word mode, [ingest] of "hello world. bye!" into an unseen
    source gives the stream hello, world., bye!; [scan_complete] is then
    true and [dump] is "hello world. bye!". *)
Theorem hello_world_scenario (calls : list (string * string))
    (source : string) :
  source ∉ calls.*1 ->
  exists e e1 e2,
    ingest_all (V2.tokenize_syllabic false) new_engine calls = Some e /\
    ingest (V2.tokenize_syllabic false) e source "hello world. bye!"
    = Some e1 /\
    sources e1 !! source = Some ["hello"; "world."; "bye!"] /\
    scan_complete e1 source = Some (true, e2) /\
    dump e1 source = Some "hello world. bye!".
Proof.
  intros Hfresh.
  destruct (fresh_ingest_scan_exact (V2.tokenize_syllabic false) calls source
              "hello world. bye!" Hfresh)
    as (e & e1 & b & e2 & Hall & Hing & Hsrc & Hscan & _ & Hb).
  assert (tokens_of (V2.tokenize_syllabic false) "hello world. bye!"
          = ["hello"; "world."; "bye!"]) as Htoks
    by (vm_compute; reflexivity).
  rewrite Htoks in Hsrc, Hb.
  assert (b = true) as ->.
  { apply Hb. exists "bye!". split; [reflexivity|].
    intros [|[|j]] Hj; cbn in *; try discriminate. lia. }
  exists e, e1, e2. repeat (split; [assumption|]).
  unfold dump. rewrite Hsrc. reflexivity.
Qed.

(** The branch over the regular expression is the tokenizer of the second
    version as the file has it. *)
Lemma policy_regex (syllable_mode : bool) (text : string) :
  Policy.tokenize_syllabic V2.syllabify syllable_mode text
  = V2.tokenize_syllabic syllable_mode text.
Proof.
  unfold Policy.tokenize_syllabic, V2.tokenize_syllabic.
  destruct syllable_mode; [|reflexivity].
  generalize (@nil string).
  induction (Re.findall Re.word_only text) as [|w words IH]; intros out;
    [reflexivity|].
  cbn [Policy.syllable_loop V2.syllable_loop]. apply IH.
Qed.

(** With the regular expression bound, as in the second class itself, the
    same text comes out as the one token strength. *)
Lemma strength_regex_engine :
  tokens_of (V2.tokenize_syllabic true) "strength" = ["strength"].
Proof. vm_compute. reflexivity. Qed.


(** ** Concrete runs *)

Lemma not_in_one_call (s k raw : string) :
  s <> k -> s ∉ [(k, raw)].*1.
Proof.
  intros Hne Hin. cbn in Hin.
  apply elem_of_cons in Hin as [Heq|Hin]; [contradiction|].
  inversion Hin.
Qed.

(** C1 fails as stated: a text of one space is not empty and gives no token,
    and the text "a b a" ends on a token the index already holds at
    position 0; [scan_complete] is false after either. *)
Lemma fresh_ingest_scan_counterexample :
  " " <> EmptyString /\
  (exists e e',
      ingest (V2.tokenize_syllabic false) new_engine "f" " " = Some e /\
      scan_complete e "f" = Some (false, e')) /\
  (exists e e',
      ingest (V2.tokenize_syllabic false) new_engine "f" "a b a" = Some e /\
      sources e !! "f" = Some ["a"; "b"; "a"] /\
      scan_complete e "f" = Some (false, e')).
Proof.
  split; [discriminate|]. split.
  - eexists _, _. split; vm_compute; reflexivity.
  - eexists _, _. split; [|split]; vm_compute; reflexivity.
Qed.

Lemma fresh_ingest_scan_witness :
  exists e e1 b e2,
    ingest_all V1.tokenize_syllabic new_engine [("a.txt", "one two")]
    = Some e /\
    ingest V1.tokenize_syllabic e "b.txt" "to be, or not" = Some e1 /\
    sources e1 !! "b.txt"
    = Some (tokens_of V1.tokenize_syllabic "to be, or not") /\
    scan_complete e1 "b.txt" = Some (b, e2) /\
    miss_counts e2 !! "b.txt" = Some 0 /\
    (tokens_of V1.tokenize_syllabic "to be, or not" = [] -> b = false) /\
    (forall lst,
        last (tokens_of V1.tokenize_syllabic "to be, or not") = Some lst ->
        (forall j,
            j < length (tokens_of V1.tokenize_syllabic "to be, or not") - 1 ->
            tokens_of V1.tokenize_syllabic "to be, or not" !! j <> Some lst) ->
        b = true).
Proof.
  apply (fresh_ingest_scan V1.tokenize_syllabic
           [("a.txt", "one two")] "b.txt" "to be, or not").
  apply not_in_one_call. discriminate.
Defined.

Lemma token_count_additive_witness :
  exists e eA eAB e0 eB,
    ingest_all (V2.tokenize_syllabic true) new_engine [("a.txt", "one two")]
    = Some e /\
    ingest (V2.tokenize_syllabic true) e "a.txt" "three" = Some eA /\
    ingest (V2.tokenize_syllabic true) eA "a.txt" "four five" = Some eAB /\
    ingest_all (V2.tokenize_syllabic true) new_engine [("c.txt", "six")]
    = Some e0 /\
    ingest (V2.tokenize_syllabic true) e0 "b.txt" "four five" = Some eB /\
    sources eB !! "b.txt"
    = Some (flat_map (V2.tokenize_syllabic true)
              (Py.split "010" (Py.strip "four five"))) /\
    token_count eB "b.txt"
    = length (flat_map (V2.tokenize_syllabic true)
                (Py.split "010" (Py.strip "four five"))) /\
    sources eAB !! "a.txt"
    = Some (default [] (sources eA !! "a.txt")
            ++ flat_map (V2.tokenize_syllabic true)
                 (Py.split "010" (Py.strip "four five"))) /\
    token_count eAB "a.txt"
    = token_count eA "a.txt"
      + length (flat_map (V2.tokenize_syllabic true)
                  (Py.split "010" (Py.strip "four five"))) /\
    token_count eAB "a.txt" = token_count eA "a.txt" + token_count eB "b.txt".
Proof.
  apply (token_count_additive (V2.tokenize_syllabic true)
           [("a.txt", "one two")] [("c.txt", "six")]
           "a.txt" "b.txt" "three" "four five").
  apply not_in_one_call. discriminate.
Defined.

Lemma unknown_source_defaults_witness :
  exists e,
    ingest_all V1.tokenize_syllabic new_engine [("a.txt", "one two")]
    = Some e /\
    scan_complete e "nope" = Some (false, e) /\
    dump e "nope" = Some EmptyString /\
    token_count e "nope" = 0 /\
    avg_syllable_length e "nope" = 0%Q.
Proof.
  apply (unknown_source_defaults V1.tokenize_syllabic
           [("a.txt", "one two")] "nope").
  apply not_in_one_call. discriminate.
Defined.

Lemma hello_world_scenario_witness :
  exists e e1 e2,
    ingest_all (V2.tokenize_syllabic false) new_engine [("a.txt", "one two")]
    = Some e /\
    ingest (V2.tokenize_syllabic false) e "b.txt" "hello world. bye!"
    = Some e1 /\
    sources e1 !! "b.txt" = Some ["hello"; "world."; "bye!"] /\
    scan_complete e1 "b.txt" = Some (true, e2) /\
    dump e1 "b.txt" = Some "hello world. bye!".
Proof.
  apply (hello_world_scenario [("a.txt", "one two")] "b.txt").
  apply not_in_one_call. discriminate.
Defined.


(** ** Engines reached by any calls *)

Section FullFacts.

Variable tokenize_syllabic : string -> list string.

Lemma clusters_of_lines_concat (lines : list string) :
  concat (clusters_of_lines tokenize_syllabic lines)
  = flat_map tokenize_syllabic lines.
Proof.
  induction lines as [|line lines IH]; [reflexivity|].
  cbn [clusters_of_lines flat_map]. rewrite concat_app, IH.
  destruct (tokenize_syllabic line); cbn; [reflexivity|].
  rewrite app_nil_r. reflexivity.
Qed.

Lemma clusters_of_lines_nonempty (lines : list string) :
  Forall (fun c => c <> []) (clusters_of_lines tokenize_syllabic lines).
Proof.
  induction lines as [|line lines IH]; [constructor|].
  cbn [clusters_of_lines].
  destruct (tokenize_syllabic line) eqn:Hl; cbn; [exact IH|].
  constructor; [discriminate|exact IH].
Qed.

Lemma clusters_of_lines_length (lines : list string) :
  length (clusters_of_lines tokenize_syllabic lines)
  = length (filter (fun line => tokenize_syllabic line <> []) lines).
Proof.
  induction lines as [|line lines IH]; [reflexivity|].
  cbn [clusters_of_lines]. rewrite length_app, IH, filter_cons.
  destruct (tokenize_syllabic line) eqn:Hl; cbn.
  - rewrite decide_False by (intros H; apply H; reflexivity). reflexivity.
  - rewrite decide_True by discriminate. reflexivity.
Qed.

Lemma clusters_of_lines_none (lines : list string) :
  flat_map tokenize_syllabic lines = [] ->
  clusters_of_lines tokenize_syllabic lines = [].
Proof.
  induction lines as [|line lines IH]; [reflexivity|].
  cbn [flat_map clusters_of_lines]. intros H.
  apply app_eq_nil in H as [Hl Hr]. rewrite Hl. cbn. apply IH. exact Hr.
Qed.

Lemma engine_full_new : engine_full new_engine.
Proof.
  split.
  - apply engine_ok_new.
  - intros s toks H. cbn in H. rewrite lookup_empty in H. discriminate.
  - intros s. cbn. rewrite !lookup_empty. reflexivity.
  - intros s _. apply lookup_empty.
Qed.

(** The engine [ingest] leaves, in full, whether or not the source is known. *)
Lemma ingest_full (e : engine) (source raw : string) :
  engine_full e ->
  exists e',
    ingest tokenize_syllabic e source raw = Some e' /\
    engine_full e' /\
    sources e'
    = <[source := default [] (sources e !! source)
                  ++ tokens_of tokenize_syllabic raw]> (sources e) /\
    (exists ctx',
        context_maps e' = <[source := ctx']> (context_maps e)) /\
    miss_counts e' = <[source := 0]> (miss_counts e) /\
    clusters e'
    = <[source := default [] (clusters e !! source)
                  ++ clusters_of_lines tokenize_syllabic (lines_of raw)]>
        (clusters e).
Proof.
  intros [Hok Hcl Hmiss Hun].
  destruct (ingest_ok tokenize_syllabic e source raw Hok)
    as (e' & Hing & Hok' & _ & _ & _).
  exists e'. split; [exact Hing|].
  destruct (sources e !! source) as [full|] eqn:Hs.
  - destruct (ok_index e Hok _ _ Hs) as (ctx & Hc & _).
    destruct (Hcl _ _ Hs) as (cl & Hcls & Hcat & Hne).
    rewrite (ingest_known tokenize_syllabic e source raw full ctx cl
               Hs Hc Hcls) in Hing.
    injection Hing as <-. cbn [sources context_maps miss_counts clusters].
    rewrite Hcls. cbn [default from_option id].
    split; [split|].
    + exact Hok'.
    + cbn [sources clusters]. intros s toks.
      destruct (decide (source = s)) as [<-|Hns].
      * rewrite !lookup_insert_eq. intros [= <-]. eexists.
        split; [reflexivity|]. split.
        -- rewrite concat_app, Hcat. f_equal. apply clusters_of_lines_concat.
        -- apply Forall_app. split; [exact Hne|].
           apply clusters_of_lines_nonempty.
      * rewrite !lookup_insert_ne by exact Hns. apply Hcl.
    + cbn [sources miss_counts]. intros s.
      destruct (decide (source = s)) as [<-|Hns].
      * rewrite lookup_insert_eq, Hmiss, Hs. reflexivity.
      * rewrite lookup_insert_ne by exact Hns. apply Hmiss.
    + cbn [sources clusters]. intros s.
      destruct (decide (source = s)) as [<-|Hns].
      * rewrite lookup_insert_eq. discriminate.
      * rewrite !lookup_insert_ne by exact Hns. apply Hun.
    + split; [reflexivity|]. split; [eauto|]. split; [|reflexivity].
      symmetry. apply insert_id. rewrite Hmiss, Hs. reflexivity.
  - rewrite (ingest_fresh tokenize_syllabic e source raw Hs) in Hing.
    injection Hing as <-. cbn [sources context_maps miss_counts clusters].
    rewrite (Hun _ Hs). cbn [default from_option id app].
    split; [split|].
    + exact Hok'.
    + cbn [sources clusters]. intros s toks.
      destruct (decide (source = s)) as [<-|Hns].
      * rewrite !lookup_insert_eq. intros [= <-]. eexists.
        split; [reflexivity|]. split.
        -- apply clusters_of_lines_concat.
        -- apply clusters_of_lines_nonempty.
      * rewrite !lookup_insert_ne by exact Hns. apply Hcl.
    + cbn [sources miss_counts]. intros s.
      destruct (decide (source = s)) as [<-|Hns].
      * rewrite !lookup_insert_eq. reflexivity.
      * rewrite !lookup_insert_ne by exact Hns. apply Hmiss.
    + cbn [sources clusters]. intros s.
      destruct (decide (source = s)) as [<-|Hns].
      * rewrite lookup_insert_eq. discriminate.
      * rewrite !lookup_insert_ne by exact Hns. apply Hun.
    + split; [reflexivity|]. split; [eauto|]. split; reflexivity.
Qed.

Lemma with_miss_counts_same (e : engine) (source : string) (n : nat) :
  miss_counts e !! source = Some n ->
  with_miss_counts e (<[source := n]> (miss_counts e)) = e.
Proof.
  intros H. unfold with_miss_counts. rewrite insert_id by exact H.
  apply engine_eta.
Qed.

(** On such an engine [scan_complete] changes nothing at all, and its answer
    only asks whether the last token of the stream is new at its place. *)
Lemma scan_complete_full (e : engine) (source : string) :
  engine_full e ->
  exists b,
    scan_complete e source = Some (b, e) /\
    (b = true <->
     exists toks lst,
       sources e !! source = Some toks /\
       last toks = Some lst /\
       forall j, j < length toks - 1 -> toks !! j <> Some lst).
Proof.
  intros [Hok _ Hmiss _].
  destruct (sources e !! source) as [toks|] eqn:Hs.
  - destruct (decide (toks = [])) as [->|Hne].
    + exists false. split.
      * unfold scan_complete. rewrite Hs. reflexivity.
      * split; [discriminate|]. intros (t & l & [= <-] & Hl & _).
        discriminate.
    + destruct (ok_index e Hok _ _ Hs) as (ctx & Hc & Hidx).
      destruct (scan_complete_known e source toks ctx Hs Hne Hc)
        as (first & lst & Hfirst & Hlst & Hscan).
      rewrite (count_missing_index_ok _ _ Hidx) in Hscan.
      rewrite with_miss_counts_same in Hscan
        by (rewrite Hmiss, Hs; reflexivity).
      eexists. split; [exact Hscan|].
      rewrite !andb_true_iff, !bool_decide_eq_true, !(Hidx _).
      rewrite !first_pos_Some. split.
      * intros [_ [_ Hmin]]. exists toks, lst. split; [reflexivity|].
        split; [|exact Hmin]. rewrite last_lookup.
        replace (pred (length toks)) with (length toks - 1) by lia.
        exact Hlst.
      * intros (t & l & [= <-] & Hl & Hmin).
        rewrite last_lookup in Hl.
        replace (pred (length toks)) with (length toks - 1) in Hl by lia.
        assert (l = lst) as -> by congruence.
        repeat split; try assumption. intros j Hj. lia.
  - exists false. split.
    + unfold scan_complete. rewrite Hs. reflexivity.
    + split; [discriminate|]. intros (t & l & [=] & _).
Qed.

Lemma verify_loop_full (keys : list string) (e : engine) :
  engine_full e ->
  forall out,
    exists res,
      verify_loop keys e out = Some (res, e) /\
      forall s,
        res !! s
        = if decide (s ∈ keys) then fst <$> scan_complete e s else out !! s.
Proof.
  intros Hfull. induction keys as [|k keys IH]; intros out.
  - exists out. split; [reflexivity|]. intros s.
    rewrite decide_False by apply not_elem_of_nil. reflexivity.
  - destruct (scan_complete_full e k Hfull) as (b & Hscan & _).
    destruct (IH (<[k := b]> out)) as (res & Hloop & Hres).
    exists res. cbn [verify_loop]. rewrite Hscan. cbn [mbind option_bind].
    split; [exact Hloop|]. intros s. rewrite (Hres s).
    destruct (decide (s ∈ keys)) as [Hin|Hnin].
    + rewrite decide_True by (right; exact Hin). reflexivity.
    + destruct (decide (k = s)) as [<-|Hne].
      * rewrite decide_True by left. rewrite lookup_insert_eq, Hscan.
        reflexivity.
      * rewrite lookup_insert_ne by exact Hne.
        rewrite decide_False; [reflexivity|].
        intros Hin. apply elem_of_cons in Hin as [->|Hin]; contradiction.
Qed.

Lemma elem_of_keys (m : gmap string (list string)) (s : string) :
  s ∈ (map_to_list m).*1 <-> is_Some (m !! s).
Proof.
  rewrite list_elem_of_fmap. split.
  - intros ([k v] & -> & Hin). apply elem_of_map_to_list in Hin. eauto.
  - intros [v Hv]. exists (s, v). split; [reflexivity|].
    apply elem_of_map_to_list. exact Hv.
Qed.

Lemma verify_all_full (e : engine) :
  engine_full e ->
  exists res,
    verify_all e = Some (res, e) /\
    forall s,
      res !! s
      = match sources e !! s with
        | Some _ => fst <$> scan_complete e s
        | None => None
        end.
Proof.
  intros Hfull. unfold verify_all.
  destruct (verify_loop_full (map_to_list (sources e)).*1 e Hfull ∅)
    as (res & Hloop & Hres).
  exists res. split; [exact Hloop|]. intros s. rewrite (Hres s).
  destruct (sources e !! s) as [toks|] eqn:Hs.
  - rewrite decide_True; [reflexivity|]. apply elem_of_keys. eauto.
  - rewrite decide_False; [apply lookup_empty|].
    rewrite elem_of_keys, Hs. intros [? [=]].
Qed.

(** No call raises, and every call keeps the dictionaries as they should
    be. *)
Lemma run_calls_full (cs : list call) :
  forall e, engine_full e ->
    exists e', run_calls tokenize_syllabic e cs = Some e' /\ engine_full e'.
Proof.
  induction cs as [|c cs IH]; intros e Hfull; [eauto|].
  assert (exists e1, do_call tokenize_syllabic e c = Some e1 /\ engine_full e1)
    as (e1 & Hc & Hfull1).
  { destruct c as [source raw|source|]; cbn [do_call].
    - destruct (ingest_full e source raw Hfull) as (e1 & H1 & Hf & _). eauto.
    - destruct (scan_complete_full e source Hfull) as (b & -> & _). eauto.
    - destruct (verify_all_full e Hfull) as (res & -> & _). eauto. }
  destruct (IH e1 Hfull1) as (e' & Hrun & Hfull').
  exists e'. cbn [run_calls]. rewrite Hc. split; assumption.
Qed.

Lemma reached_full (cs : list call) :
  exists e, run_calls tokenize_syllabic new_engine cs = Some e /\
            engine_full e.
Proof. apply run_calls_full, engine_full_new. Qed.

End FullFacts.

(** ** What any run of calls keeps *)

Section ReachedProperties.

Variable tokenize_syllabic : string -> list string.

Lemma length_le_concat {A} (cl : list (list A)) :
  Forall (fun c => c <> []) cl -> length cl <= length (concat cl).
Proof.
  induction 1 as [|c cl Hc _ IH]; [reflexivity|].
  cbn [concat length]. rewrite length_app.
  destruct c; [congruence|]. cbn. lia.
Qed.

Lemma sum_all_zero (l : list nat) :
  Forall (fun n => n = 0) l -> foldr Nat.add 0 l = 0.
Proof. induction 1 as [|n l -> _ IH]; [reflexivity|exact IH]. Qed.

(** X1: whatever calls of [ingest], [scan_complete] and [verify_all] were
    made on a new engine, none raises; and on the engine they leave,
    [scan_complete] and [verify_all] change none of the four dictionaries. *)
Theorem queries_leave_engine_unchanged (cs : list call) :
  exists e,
    run_calls tokenize_syllabic new_engine cs = Some e /\
    (forall source, exists b, scan_complete e source = Some (b, e)) /\
    (exists res, verify_all e = Some (res, e)).
Proof.
  destruct (reached_full tokenize_syllabic cs) as (e & Hrun & Hfull).
  exists e. split; [exact Hrun|]. split.
  - intros source.
    destruct (scan_complete_full e source Hfull) as (b & Hb & _). eauto.
  - destruct (verify_all_full e Hfull) as (res & Hres & _). eauto.
Qed.

(** X2: on an engine reached by any calls, [scan_complete] is true exactly
    when the source has a token and the last token of its stream stands at
    no earlier position; a stream that ends on a repeated token is reported
    as incomplete. *)
Theorem scan_complete_reached (cs : list call) :
  exists e,
    run_calls tokenize_syllabic new_engine cs = Some e /\
    forall source b e',
      scan_complete e source = Some (b, e') ->
      (b = true <->
       exists toks lst,
         sources e !! source = Some toks /\
         last toks = Some lst /\
         forall j, j < length toks - 1 -> toks !! j <> Some lst).
Proof.
  destruct (reached_full tokenize_syllabic cs) as (e & Hrun & Hfull).
  exists e. split; [exact Hrun|]. intros source b e' Hscan.
  destruct (scan_complete_full e source Hfull) as (b' & Hb & Hiff).
  assert (b = b') as -> by congruence. exact Hiff.
Qed.

(** X3: the stored miss counts are all 0, whatever was ingested and
    scanned: exactly the known sources have one, and the total that the log
    and the report print is 0. *)
Theorem miss_counts_stay_zero (cs : list call) :
  exists e,
    run_calls tokenize_syllabic new_engine cs = Some e /\
    (forall source, miss_counts e !! source = None <->
                    sources e !! source = None) /\
    (forall source n, miss_counts e !! source = Some n -> n = 0) /\
    total_missing e = 0.
Proof.
  destruct (reached_full tokenize_syllabic cs) as (e & Hrun & Hfull).
  pose proof (full_miss e Hfull) as Hmiss.
  exists e. split; [exact Hrun|]. split; [|split].
  - intros source. rewrite (Hmiss source).
    destruct (sources e !! source); simpl; split; congruence.
  - intros source n. rewrite (Hmiss source).
    destruct (sources e !! source); simpl; congruence.
  - unfold total_missing. apply sum_all_zero.
    apply Forall_forall. intros n Hn.
    apply list_elem_of_fmap in Hn as ([k v] & -> & Hin).
    apply elem_of_map_to_list in Hin. rewrite (Hmiss k) in Hin.
    cbn [snd]. destruct (sources e !! k); simpl in Hin; congruence.
Qed.

(** X4: [verify_all] answers for exactly the known sources, and for each
    with what [scan_complete] answers for it. *)
Theorem verify_all_answers (cs : list call) :
  exists e res,
    run_calls tokenize_syllabic new_engine cs = Some e /\
    verify_all e = Some (res, e) /\
    (forall source, res !! source = None <-> sources e !! source = None) /\
    (forall source b, res !! source = Some b ->
                      scan_complete e source = Some (b, e)).
Proof.
  destruct (reached_full tokenize_syllabic cs) as (e & Hrun & Hfull).
  destruct (verify_all_full e Hfull) as (res & Hver & Hres).
  exists e, res. split; [exact Hrun|]. split; [exact Hver|]. split.
  - intros source. rewrite (Hres source).
    destruct (scan_complete_full e source Hfull) as (b & -> & _).
    destruct (sources e !! source); simpl; split; congruence.
  - intros source b. rewrite (Hres source).
    destruct (scan_complete_full e source Hfull) as (b' & -> & _).
    destruct (sources e !! source); simpl; congruence.
Qed.

(** X5: the clusters of a source, put end to end, are its token stream, and
    no cluster is empty; so a source never has more clusters than tokens. *)
Theorem clusters_make_up_stream (cs : list call) :
  exists e,
    run_calls tokenize_syllabic new_engine cs = Some e /\
    forall source toks,
      sources e !! source = Some toks ->
      exists cl,
        clusters e !! source = Some cl /\
        concat cl = toks /\
        Forall (fun c => c <> []) cl /\
        cluster_count e source <= token_count e source.
Proof.
  destruct (reached_full tokenize_syllabic cs) as (e & Hrun & Hfull).
  exists e. split; [exact Hrun|]. intros source toks Hs.
  destruct (full_clusters e Hfull _ _ Hs) as (cl & Hcl & Hcat & Hne).
  exists cl. repeat (split; [assumption|]).
  unfold cluster_count, token_count. rewrite Hcl, Hs. cbn.
  rewrite <- Hcat. apply length_le_concat. exact Hne.
Qed.

(** X6: [ingest] into one source leaves the stream, the index, the miss
    count and the clusters of every other source as they are. *)
Theorem ingest_leaves_other_sources (cs : list call) (source raw : string) :
  exists e e',
    run_calls tokenize_syllabic new_engine cs = Some e /\
    ingest tokenize_syllabic e source raw = Some e' /\
    forall other,
      other <> source ->
      sources e' !! other = sources e !! other /\
      context_maps e' !! other = context_maps e !! other /\
      miss_counts e' !! other = miss_counts e !! other /\
      clusters e' !! other = clusters e !! other.
Proof.
  destruct (reached_full tokenize_syllabic cs) as (e & Hrun & Hfull).
  destruct (ingest_full tokenize_syllabic e source raw Hfull)
    as (e' & Hing & _ & Hs & (ctx' & Hc) & Hm & Hcl).
  exists e, e'. split; [exact Hrun|]. split; [exact Hing|].
  intros other Hne. rewrite Hs, Hc, Hm, Hcl.
  rewrite !lookup_insert_ne by congruence. auto.
Qed.

(** X7: [ingest] only appends: the old stream of the source is kept in
    front, followed by the tokens of the lines of the text in order, and the
    token count grows by their number. *)
Theorem ingest_appends_tokens (cs : list call) (source raw : string) :
  exists e e',
    run_calls tokenize_syllabic new_engine cs = Some e /\
    ingest tokenize_syllabic e source raw = Some e' /\
    sources e' !! source
    = Some (default [] (sources e !! source)
            ++ flat_map tokenize_syllabic
                 (Py.split "010" (Py.strip raw))) /\
    token_count e' source
    = token_count e source
      + length (flat_map tokenize_syllabic (Py.split "010" (Py.strip raw))).
Proof.
  destruct (reached_full tokenize_syllabic cs) as (e & Hrun & Hfull).
  destruct (ingest_full tokenize_syllabic e source raw Hfull)
    as (e' & Hing & _ & Hs & _).
  exists e, e'. split; [exact Hrun|]. split; [exact Hing|].
  unfold token_count. rewrite Hs, lookup_insert_eq. split; [reflexivity|].
  cbn. rewrite length_app. reflexivity.
Qed.

(** X8: [ingest] adds one cluster for each line of the stripped text that
    has a token, and none for the other lines. *)
Theorem ingest_adds_cluster_per_line (cs : list call) (source raw : string) :
  exists e e',
    run_calls tokenize_syllabic new_engine cs = Some e /\
    ingest tokenize_syllabic e source raw = Some e' /\
    cluster_count e' source
    = cluster_count e source
      + length (filter (fun line => tokenize_syllabic line <> [])
                  (Py.split "010" (Py.strip raw))).
Proof.
  destruct (reached_full tokenize_syllabic cs) as (e & Hrun & Hfull).
  destruct (ingest_full tokenize_syllabic e source raw Hfull)
    as (e' & Hing & _ & _ & _ & _ & Hcl).
  exists e, e'. split; [exact Hrun|]. split; [exact Hing|].
  unfold cluster_count. rewrite Hcl, lookup_insert_eq. cbn.
  rewrite length_app, clusters_of_lines_length. reflexivity.
Qed.

End ReachedProperties.

(** ** Edge cases of the queries *)

Lemma index_of_nat {A} (l : list A) (i : nat) :
  Py.index l (Z.of_nat i) = l !! i.
Proof.
  unfold Py.index.
  destruct (0 <=? Z.of_nat i)%Z eqn:H; [|apply Z.leb_gt in H; lia].
  rewrite Nat2Z.id. reflexivity.
Qed.

Lemma app_char_not_empty (a b : string) (c : ascii) :
  a +:+ String c b <> EmptyString.
Proof. destruct a; discriminate. Qed.

(** What [dump] returns for a source with tokens. *)
Lemma dump_known (e : engine) (source : string) (toks : list string) :
  sources e !! source = Some toks ->
  toks <> [] ->
  exists f m l,
    toks !! 0 = Some f /\
    toks !! (length toks / 2) = Some m /\
    last toks = Some l /\
    dump e source = Some (f +:+ " " +:+ m +:+ " " +:+ l).
Proof.
  intros Hs Hne.
  destruct (lookup_last_is_Some toks Hne) as [l Hl].
  assert (length toks / 2 < length toks) as Hmid.
  { apply Nat.div_lt; [|lia]. destruct toks; [congruence|cbn; lia]. }
  destruct (lookup_lt_is_Some_2 toks _ Hmid) as [m Hm].
  destruct toks as [|f toks'] eqn:Htoks; [congruence|].
  exists f, m, l. split; [reflexivity|]. split; [exact Hm|]. split.
  - rewrite last_lookup.
    replace (pred (length (f :: toks'))) with (length (f :: toks') - 1)
      by lia.
    exact Hl.
  - unfold dump. rewrite Hs. cbn [nonempty negb].
    rewrite index_first, index_last by exact Hne.
    change 2%Z with (Z.of_nat 2).
    rewrite <- Nat2Z.inj_div, index_of_nat, Hm, Hl. reflexivity.
Qed.

(** X9: [dump] never raises, whatever the engine holds: the three look-ups
    are in range.  It returns the empty string exactly for a source without
    tokens, and otherwise the first token, the token at position
    [len // 2] and the last token, joined by single spaces. *)
Theorem dump_never_raises (e : engine) (source : string) :
  exists r,
    dump e source = Some r /\
    (r = EmptyString <-> token_count e source = 0) /\
    (forall toks,
        sources e !! source = Some toks -> toks <> [] ->
        exists f m l,
          toks !! 0 = Some f /\
          toks !! (length toks / 2) = Some m /\
          last toks = Some l /\
          r = f +:+ " " +:+ m +:+ " " +:+ l).
Proof.
  destruct (sources e !! source) as [toks|] eqn:Hs.
  - destruct (decide (toks = [])) as [->|Hne].
    + exists EmptyString. unfold dump, token_count. rewrite Hs.
      split; [reflexivity|]. split; [split; reflexivity|].
      intros toks [= <-] H. congruence.
    + destruct (dump_known e source toks Hs Hne)
        as (f & m & l & Hf & Hm & Hl & Hd).
      eexists. split; [exact Hd|]. split.
      * unfold token_count. rewrite Hs. cbn. split.
        -- intros H. exfalso. exact (app_char_not_empty _ _ _ H).
        -- intros H. destruct toks; [congruence|discriminate].
      * intros toks' [= <-] _. exists f, m, l. auto.
  - exists EmptyString. unfold dump, token_count. rewrite Hs.
    split; [reflexivity|]. split; [split; reflexivity|].
    intros toks [=].
Qed.

Section EdgeProperties.

Variable tokenize_syllabic : string -> list string.

(** X10: a text none of whose lines has a token changes nothing when its
    source is known.  When the source is new, [ingest] still enters it, with
    an empty stream and no cluster; [scan_complete] is then false, [dump]
    empty, and the log loop raises on the first token. *)
Theorem ingest_without_tokens (cs : list call) (source raw : string) :
  flat_map tokenize_syllabic (Py.split "010" (Py.strip raw)) = [] ->
  exists e,
    run_calls tokenize_syllabic new_engine cs = Some e /\
    (is_Some (sources e !! source) ->
     ingest tokenize_syllabic e source raw = Some e) /\
    (sources e !! source = None ->
     exists e',
       ingest tokenize_syllabic e source raw = Some e' /\
       sources e' !! source = Some [] /\
       clusters e' !! source = Some [] /\
       scan_complete e' source = Some (false, e') /\
       dump e' source = Some EmptyString /\
       forall complete, log_row_of e' source complete = None).
Proof.
  intros Hnone.
  destruct (reached_full tokenize_syllabic cs) as (e & Hrun & Hfull).
  exists e. split; [exact Hrun|]. split.
  - intros [full Hs].
    destruct (ok_index e (full_ok e Hfull) _ _ Hs) as (ctx & Hc & _).
    destruct (full_clusters e Hfull _ _ Hs) as (cl & Hcl & _).
    rewrite (ingest_known tokenize_syllabic e source raw full ctx cl
               Hs Hc Hcl).
    unfold tokens_of, lines_of. rewrite Hnone.
    rewrite (clusters_of_lines_none tokenize_syllabic _ Hnone).
    cbn [index_fold]. rewrite !app_nil_r.
    rewrite !insert_id by assumption. rewrite engine_eta. reflexivity.
  - intros Hs. eexists.
    rewrite (ingest_fresh tokenize_syllabic e source raw Hs).
    unfold tokens_of, lines_of. rewrite Hnone.
    rewrite (clusters_of_lines_none tokenize_syllabic _ Hnone).
    cbn [index_fold]. split; [reflexivity|].
    unfold scan_complete, dump, log_row_of.
    cbn [sources clusters]. rewrite !lookup_insert_eq.
    repeat split.
Qed.

(** X11: on an engine reached by any calls, the log loop raises for a known
    source without tokens, on the look-up of the first token; for a source
    with tokens it gets the first and the last token, the checksum of
    [dump], the token count, and a miss count of 0 for a failed source. *)
Theorem log_row_needs_tokens (cs : list call) :
  exists e,
    run_calls tokenize_syllabic new_engine cs = Some e /\
    forall src complete toks,
      sources e !! src = Some toks ->
      (toks = [] -> log_row_of e src complete = None) /\
      (toks <> [] ->
       exists row,
         log_row_of e src complete = Some row /\
         toks !! 0 = Some (row_first row) /\
         last toks = Some (row_last row) /\
         dump e src = Some (row_checksum row) /\
         row_tokens row = length toks /\
         row_missing row = if complete then None else Some 0).
Proof.
  destruct (reached_full tokenize_syllabic cs) as (e & Hrun & Hfull).
  exists e. split; [exact Hrun|]. intros src complete toks Hs. split.
  - intros ->. unfold log_row_of. rewrite Hs. reflexivity.
  - intros Hne.
    destruct (dump_known e src toks Hs Hne) as (f & m & l & Hf & Hm & Hl & Hd).
    assert (miss_counts e !! src = Some 0) as Hmiss
      by (rewrite (full_miss e Hfull), Hs; reflexivity).
    unfold log_row_of. rewrite Hs. cbn [mbind option_bind].
    rewrite index_first, Hf. cbn [mbind option_bind].
    rewrite index_last by exact Hne.
    rewrite last_lookup in Hl.
    replace (pred (length toks)) with (length toks - 1) in Hl by lia.
    rewrite Hl, Hd, Hmiss. cbn [mbind option_bind].
    destruct complete; cbn [mbind option_bind]; eexists;
      (split; [reflexivity|]); cbn [row_first row_last row_checksum
                                      row_tokens row_missing];
      rewrite last_lookup;
      replace (pred (length toks)) with (length toks - 1) by lia;
      unfold token_count; rewrite Hs; auto.
Qed.

End EdgeProperties.

(** ** Log rotation *)

Section RotationProperties.

Variable gzip : string -> string.

Lemma app_suffix_neq (s t : string) : t <> EmptyString -> s +:+ t <> s.
Proof.
  intros Ht. induction s as [|c s IH]; [exact Ht|].
  rewrite app_cons_l. intros [= H]. exact (IH H).
Qed.

(** X12: [rotate_log_file] always returns the path it was given, and leaves
    the file system alone when there is no file at the path or the file is
    not larger than [max_size]: a file of exactly [max_size] bytes stays. *)
Theorem rotate_keeps_small_log (fs : gmap string string)
    (now log_path : string) (max_size : nat) (compress : bool) :
  (rotate_log_file gzip fs now log_path max_size compress).2 = log_path /\
  ((forall content, fs !! log_path = Some content ->
                    String.length content <= max_size) ->
   (rotate_log_file gzip fs now log_path max_size compress).1 = fs).
Proof.
  unfold rotate_log_file.
  destruct (fs !! log_path) as [content|] eqn:Hf; [|split; reflexivity].
  destruct (max_size <? String.length content) eqn:Hlt.
  - split.
    + destruct compress; [|reflexivity].
      rewrite lookup_insert_eq. reflexivity.
    + intros H. apply Nat.ltb_lt in Hlt.
      specialize (H content eq_refl). lia.
  - split; reflexivity.
Qed.

(** X13: a log file larger than [max_size] is moved away: nothing is left
    at its path; without compression its bytes are at
    [path.<time>.bak], with compression their [gzip] is at
    [path.<time>.bak.gz] and the [.bak] file is removed again; no other
    path is touched. *)
Theorem rotate_moves_large_log (fs : gmap string string)
    (now log_path content : string) (max_size : nat) (compress : bool) :
  fs !! log_path = Some content ->
  max_size < String.length content ->
  let rotated := log_path +:+ "." +:+ now +:+ ".bak" in
  let fs' := (rotate_log_file gzip fs now log_path max_size compress).1 in
  fs' !! log_path = None /\
  (compress = false -> fs' !! rotated = Some content) /\
  (compress = true ->
   fs' !! rotated = None /\
   fs' !! (rotated +:+ ".gz") = Some (gzip content)) /\
  (forall q, q <> log_path -> q <> rotated -> q <> rotated +:+ ".gz" ->
             fs' !! q = fs !! q).
Proof.
  intros Hf Hlt rotated fs'.
  assert (rotated <> log_path) as Hr
    by (apply app_suffix_neq; discriminate).
  assert (rotated +:+ ".gz" <> rotated) as Hgz
    by (apply app_suffix_neq; discriminate).
  assert (rotated +:+ ".gz" <> log_path) as Hgzp.
  { unfold rotated. rewrite app_assoc_str.
    apply app_suffix_neq. discriminate. }
  unfold fs', rotate_log_file. rewrite Hf.
  apply Nat.ltb_lt in Hlt. rewrite Hlt. fold rotated.
  destruct compress.
  - rewrite lookup_insert_eq. cbn [fst].
    split; [|split; [discriminate|split]].
    + rewrite lookup_delete_ne, lookup_insert_ne, lookup_insert_ne,
        lookup_delete_eq by congruence.
      reflexivity.
    + intros _. split; [apply lookup_delete_eq|].
      rewrite lookup_delete_ne, lookup_insert_eq by congruence.
      reflexivity.
    + intros q Hq1 Hq2 Hq3.
      rewrite lookup_delete_ne, lookup_insert_ne, lookup_insert_ne,
        lookup_delete_ne by congruence.
      reflexivity.
  - cbn [fst]. split; [|split; [|split; [discriminate|]]].
    + rewrite lookup_insert_ne, lookup_delete_eq by congruence.
      reflexivity.
    + intros _. apply lookup_insert_eq.
    + intros q Hq1 Hq2 _.
      rewrite lookup_insert_ne, lookup_delete_ne by congruence.
      reflexivity.
Qed.

End RotationProperties.

Lemma rotate_moves_large_log_witness :
  let gz := fun bytes => "gz:" +:+ bytes in
  let fs : gmap string string := {[ "scan.log" := "0123456789" ]} in
  let rotated := "scan.log" +:+ "." +:+ "20240101T000000Z" +:+ ".bak" in
  let fs' :=
    (rotate_log_file gz fs "20240101T000000Z" "scan.log" 4 true).1 in
  fs' !! "scan.log" = None /\
  (true = false -> fs' !! rotated = Some "0123456789") /\
  (true = true ->
   fs' !! rotated = None /\
   fs' !! (rotated +:+ ".gz") = Some (gz "0123456789")) /\
  (forall q, q <> "scan.log" -> q <> rotated -> q <> rotated +:+ ".gz" ->
             fs' !! q = fs !! q).
Proof.
  apply (rotate_moves_large_log (fun bytes => "gz:" +:+ bytes)
           {[ "scan.log" := "0123456789" ]} "20240101T000000Z"
           "scan.log" "0123456789" 4 true).
  - reflexivity.
  - cbn. lia.
Defined.

(** ** What the tokenizers return *)

Section RegexFacts.

Lemma all_in_app (c : ascii -> bool) (a b : string) :
  all_in c (a +:+ b) = all_in c a && all_in c b.
Proof.
  induction a as [|x a IH]; [reflexivity|].
  rewrite app_cons_l. cbn [all_in]. rewrite IH, andb_assoc. reflexivity.
Qed.

Lemma no_char_of_app (set a b : string) :
  no_char_of set (a +:+ b) = no_char_of set a && no_char_of set b.
Proof.
  induction a as [|x a IH]; [reflexivity|].
  rewrite app_cons_l. cbn [no_char_of]. rewrite IH, andb_assoc. reflexivity.
Qed.

Lemma run_le_length (c : Re.charclass) (s : string) :
  Re.run c s <= String.length s.
Proof.
  induction s as [|a s IH]; [reflexivity|].
  cbn [Re.run String.length]. destruct (c a); lia.
Qed.

Lemma all_in_take_run (c : Re.charclass) (n : nat) (s : string) :
  n <= Re.run c s -> all_in c (Re.take n s) = true.
Proof.
  revert s. induction n as [|n IH]; intros s Hn; [destruct s; reflexivity|].
  destruct s as [|a s]; [reflexivity|].
  cbn [Re.run] in Hn. cbn [Re.take all_in].
  destruct (c a); [|lia]. cbn [andb]. apply IH. lia.
Qed.

Lemma length_take (n : nat) (s : string) :
  n <= String.length s -> String.length (Re.take n s) = n.
Proof.
  revert s. induction n as [|n IH]; intros s Hn; [destruct s; reflexivity|].
  destruct s as [|a s]; [cbn in Hn; lia|].
  cbn [Re.take String.length]. rewrite IH; [reflexivity|].
  cbn [String.length] in Hn. lia.
Qed.

Lemma run_all_in (c : Re.charclass) (s : string) :
  all_in c s = true -> Re.run c s = String.length s.
Proof.
  induction s as [|a s IH]; [reflexivity|].
  cbn [all_in Re.run String.length]. intros H.
  apply andb_true_iff in H as [-> H]. rewrite (IH H). reflexivity.
Qed.

Lemma run_app_all_in (c : Re.charclass) (a b : string) :
  all_in c a = true -> Re.run c (a +:+ b) = String.length a + Re.run c b.
Proof.
  induction a as [|x a IH]; [reflexivity|].
  cbn [all_in]. intros H. apply andb_true_iff in H as [Hx H].
  rewrite app_cons_l. cbn [Re.run String.length]. rewrite Hx, (IH H).
  reflexivity.
Qed.

Lemma take_app_length (a b : string) : Re.take (String.length a) (a +:+ b) = a.
Proof.
  induction a as [|x a IH]; [destruct b; reflexivity|].
  rewrite app_cons_l. cbn [String.length Re.take]. rewrite IH. reflexivity.
Qed.

Lemma backtrack_some {R} (k : nat -> option R) (lo extra : nat) (r : R) :
  Re.backtrack k lo extra = Some r ->
  exists n, lo <= n <= lo + extra /\ k n = Some r.
Proof.
  induction extra as [|extra IH]; cbn [Re.backtrack].
  - destruct (k (lo + 0)) eqn:Hk; [|discriminate].
    intros [= <-]. exists (lo + 0). split; [lia|exact Hk].
  - destruct (k (lo + S extra)) eqn:Hk.
    + intros [= <-]. exists (lo + S extra). split; [lia|exact Hk].
    + intros H. destruct (IH H) as (n & Hn & Hkn).
      exists n. split; [lia|exact Hkn].
Qed.

(** A match takes a prefix of the text, cut into one piece for each atom;
    each piece lies in the class of its atom and is at least as long as the
    quantifier asks. *)
Lemma match_atoms_shape (p : list Re.atom) :
  forall s gs rest,
    Re.match_atoms p s = Some (gs, rest) ->
    Re.whole gs +:+ rest = s /\
    Forall2 (fun a g => all_in a.1 g = true /\
                        Re.least a.2 <= String.length g) p gs.
Proof.
  induction p as [|[c q] p IH]; intros s gs rest; cbn [Re.match_atoms].
  - intros [= <- <-]. split; [reflexivity|constructor].
  - destruct (Re.run c s <? Re.least q) eqn:Hlt; [discriminate|].
    apply Nat.ltb_ge in Hlt. intros H.
    apply backtrack_some in H as (n & Hn & Hk).
    destruct (Re.match_atoms p (Re.drop n s)) as [[gs' rest']|] eqn:Hm;
      [|discriminate].
    injection Hk as <- <-.
    destruct (IH _ _ _ Hm) as [Hw Hall].
    pose proof (run_le_length c s) as Hrl.
    split.
    + unfold Re.whole in *. rewrite join_empty_cons, app_assoc_str, Hw.
      apply V2Facts.take_drop.
    + constructor; [|exact Hall]. cbn [fst snd]. split.
      * apply all_in_take_run. lia.
      * rewrite length_take by lia. lia.
Qed.

(** Every string [re.findall] returns is the text of a match somewhere in
    the text. *)
Lemma findall_from_elem (p : list Re.atom) (x : string) (s : string) :
  forall k,
    x ∈ Re.findall_from p k s ->
    exists j gs rest,
      Re.match_atoms p (Re.drop j s) = Some (gs, rest) /\ x = Re.whole gs.
Proof.
  induction s as [|a s IH]; intros k; cbn [Re.findall_from].
  - destruct k as [|k]; [|intros H; inversion H].
    destruct (Re.match_atoms p EmptyString) as [[gs rest]|] eqn:Hm;
      [|intros H; inversion H].
    intros H. apply list_elem_of_singleton in H as ->.
    exists 0, gs, rest. split; [exact Hm|reflexivity].
  - destruct k as [|k].
    + destruct (Re.match_atoms p (String a s)) as [[gs rest]|] eqn:Hm.
      * intros H. apply elem_of_cons in H as [->|H].
        -- exists 0, gs, rest. split; [exact Hm|reflexivity].
        -- destruct (IH _ H) as (j & gs' & rest' & Hj & Hx).
           exists (S j), gs', rest'. split; [exact Hj|exact Hx].
      * intros H. destruct (IH _ H) as (j & gs' & rest' & Hj & Hx).
        exists (S j), gs', rest'. split; [exact Hj|exact Hx].
    + intros H. destruct (IH _ H) as (j & gs' & rest' & Hj & Hx).
      exists (S j), gs', rest'. split; [exact Hj|exact Hx].
Qed.

Lemma all_in_drop (c : ascii -> bool) (j : nat) (s : string) :
  all_in c s = true -> all_in c (Re.drop j s) = true.
Proof.
  revert s. induction j as [|j IH]; intros s H; [destruct s; exact H|].
  destruct s as [|a s]; [exact H|].
  cbn [Re.drop]. apply IH. cbn [all_in] in H.
  apply andb_true_iff in H as [_ H]. exact H.
Qed.

Lemma punct_not_word (c : ascii) :
  Re.punct c = true -> Re.word_or_quote c = false.
Proof.
  unfold Re.punct, Py.char_in.
  repeat (destruct (decide _) as [->|_]; [intros _; vm_compute; reflexivity|]).
  discriminate.
Qed.

Lemma run_word_punct_piece (g : string) :
  all_in Re.punct g = true -> Re.run Re.word_or_quote g = 0.
Proof.
  destruct g as [|a g]; [reflexivity|].
  cbn [all_in Re.run]. intros H. apply andb_true_iff in H as [Ha _].
  rewrite (punct_not_word a Ha). reflexivity.
Qed.

Lemma take_length (s : string) : Re.take (String.length s) s = s.
Proof.
  induction s as [|a s IH]; [reflexivity|].
  cbn [String.length Re.take]. rewrite IH. reflexivity.
Qed.

Lemma drop_length (s : string) : Re.drop (String.length s) s = EmptyString.
Proof. induction s as [|a s IH]; [reflexivity|exact IH]. Qed.

(** [re.match] on a word token takes all of it and gives its two parts. *)
Lemma match_word_token (base punc : string) :
  base <> EmptyString ->
  all_in Re.word_or_quote base = true ->
  all_in Re.punct punc = true ->
  Re.match_atoms Re.word_punct (base +:+ punc)
  = Some ([base; punc], EmptyString).
Proof.
  intros Hne Hb Hp. unfold Re.word_punct.
  assert (Re.run Re.word_or_quote (base +:+ punc) = String.length base) as Hrun.
  { rewrite (run_app_all_in _ _ _ Hb), (run_word_punct_piece _ Hp). lia. }
  assert (Re.match_atoms [(Re.punct, Re.Star)] punc
          = Some ([punc], EmptyString)) as Hinner.
  { pose proof (V2Facts.match_atoms_greedy Re.punct Re.Star [] punc []
                  (Re.drop (Re.run Re.punct punc) punc)) as H.
    rewrite (run_all_in _ _ Hp), take_length, drop_length in H.
    apply H; [cbn; lia|reflexivity]. }
  pose proof (V2Facts.match_atoms_greedy Re.word_or_quote Re.Plus
                [(Re.punct, Re.Star)] (base +:+ punc) [punc] EmptyString)
    as H.
  rewrite Hrun, take_app_length, V2Facts.drop_app_length in H.
  apply H; [|exact Hinner].
  destruct base; [congruence|cbn; lia].
Qed.

(** Every match of the word pattern is a word token. *)
Lemma findall_word_token (text w : string) :
  w ∈ Re.findall Re.word_punct text -> word_token w.
Proof.
  intros H. apply findall_from_elem in H as (j & gs & rest & Hm & ->).
  apply match_atoms_shape in Hm as [_ Hall].
  unfold Re.word_punct in Hall.
  inversion Hall as [|a0 base p0 gs0 [Hb Hlen] Hall0]; subst.
  inversion Hall0 as [|a1 punc p1 gs1 [Hp _] Hall1]; subst.
  inversion Hall1; subst.
  exists base, punc. cbn [fst snd Re.least] in *.
  split; [|split; [|split]]; try assumption.
  - unfold Re.whole. rewrite join_empty_cons. reflexivity.
  - destruct base; [cbn in Hlen; lia|discriminate].
Qed.

Lemma word_loop_tokens (words : list string) :
  Forall word_token words ->
  forall out, V2.word_loop words out = out ++ words.
Proof.
  induction 1 as [|w words (base & punc & -> & Hne & Hb & Hp) _ IH];
    intros out; cbn [V2.word_loop].
  - rewrite app_nil_r. reflexivity.
  - rewrite (match_word_token base punc Hne Hb Hp), IH, <- app_assoc.
    reflexivity.
Qed.

End RegexFacts.

(** X14: in the word mode every match of [re.findall] becomes one token,
    unchanged: the second [re.match] never fails and puts the word and its
    punctuation together again.  Both versions of the class agree on it. *)
Theorem word_mode_tokens_are_matches (text : string) :
  V2.tokenize_syllabic false text = Re.findall Re.word_punct text /\
  V1.tokenize_syllabic text = Re.findall Re.word_punct text.
Proof.
  assert (V2.tokenize_syllabic false text = Re.findall Re.word_punct text)
    as H2.
  { unfold V2.tokenize_syllabic. rewrite word_loop_tokens; [reflexivity|].
    apply Forall_forall. intros w Hw. exact (findall_word_token text w Hw). }
  split; [exact H2|].
  unfold V1.tokenize_syllabic. rewrite tokenize_loop_word_loop.
  exact H2.
Qed.

(** X15: every token of the word mode is made of word characters or
    apostrophes, at least one, followed by punctuation marks only; so no
    token is empty and none holds white space. *)
Theorem word_mode_token_shape (text tok : string) :
  tok ∈ V2.tokenize_syllabic false text ->
  exists base punc,
    tok = base +:+ punc /\
    base <> EmptyString /\
    all_in Re.word_or_quote base = true /\
    all_in Re.punct punc = true.
Proof.
  intros H. unfold V2.tokenize_syllabic in H.
  rewrite word_loop_tokens in H.
  - exact (findall_word_token text tok H).
  - apply Forall_forall. intros w Hw. exact (findall_word_token text w Hw).
Qed.

Section SyllableFacts.

Lemma string_snoc (s : string) :
  s <> EmptyString -> exists body c, s = body +:+ String c EmptyString.
Proof.
  induction s as [|a s IH]; [congruence|]. intros _.
  destruct s as [|b s].
  - exists EmptyString, a. reflexivity.
  - destruct IH as (body & c & Hs); [discriminate|].
    exists (String a body), c. rewrite app_cons_l, <- Hs. reflexivity.
Qed.

Lemma loop_syllable_buffer (syl : string) :
  syl <> EmptyString -> no_char_of V1.vowels syl = true -> loop_syllable syl.
Proof.
  intros Hne Hnv. destruct (string_snoc syl Hne) as (body & c & ->).
  exists body, c. split; [reflexivity|].
  rewrite no_char_of_app in Hnv. apply andb_true_iff in Hnv as [H _].
  exact H.
Qed.

Lemma syllabify_loop_shape (chars : string) :
  forall out syl,
    Forall loop_syllable out ->
    no_char_of V1.vowels syl = true ->
    Forall loop_syllable (V1.syllabify_loop chars out syl).
Proof.
  induction chars as [|c chars IH]; intros out syl Hout Hsyl;
    cbn [V1.syllabify_loop].
  - destruct syl as [|a syl]; cbn [Py.truthy]; [exact Hout|].
    apply Forall_app. split; [exact Hout|].
    constructor; [|constructor].
    apply loop_syllable_buffer; [discriminate|exact Hsyl].
  - rewrite truthy_app_char, andb_true_r.
    destruct (Py.char_in c V1.vowels) eqn:Hc.
    + apply IH; [|reflexivity].
      apply Forall_app. split; [exact Hout|].
      constructor; [|constructor]. exists syl, c. auto.
    + apply IH; [exact Hout|].
      rewrite no_char_of_app, Hsyl. cbn [no_char_of andb].
      rewrite Hc. reflexivity.
Qed.

Lemma vowel_piece_has_vowel (g : string) :
  all_in Re.vowel_i g = true ->
  1 <= String.length g ->
  no_char_of "aeiouAEIOU" g = false.
Proof.
  destruct g as [|a g]; [cbn; lia|].
  cbn [all_in no_char_of]. intros H _.
  apply andb_true_iff in H as [Ha _]. unfold Re.vowel_i in Ha.
  rewrite Ha. reflexivity.
Qed.

(** A match of the vowel pattern inside a text: it holds a vowel, and every
    class that holds all of the text holds all of the match. *)
Lemma syllabify_elem (w x : string) :
  x ∈ V2.syllabify w ->
  no_char_of "aeiouAEIOU" x = false /\
  forall c : ascii -> bool, all_in c w = true -> all_in c x = true.
Proof.
  unfold V2.syllabify, Re.findall. intros H.
  apply findall_from_elem in H as (j & gs & rest & Hm & ->).
  apply match_atoms_shape in Hm as [Hw Hall]. split.
  - unfold Re.vowel_group in Hall.
    inversion Hall as [|a0 g0 p0 gs0 _ Hall0]; subst.
    inversion Hall0 as [|a1 g1 p1 gs1 [Hv Hlen] Hall1]; subst.
    inversion Hall1 as [|a2 g2 p2 gs2 _ Hall2]; subst.
    inversion Hall2; subst. cbn [fst snd Re.least] in *.
    unfold Re.whole. rewrite !join_empty_cons, !no_char_of_app.
    rewrite (vowel_piece_has_vowel g1 Hv Hlen).
    rewrite andb_false_l, andb_false_r. reflexivity.
  - intros c Hc. pose proof (all_in_drop c j w Hc) as Hd.
    rewrite <- Hw, all_in_app in Hd.
    apply andb_true_iff in Hd as [H _]. exact H.
Qed.

Lemma syllable_loop_elem (words : list string) (x : string) :
  forall out,
    x ∈ V2.syllable_loop words out ->
    x ∈ out \/ exists w, w ∈ words /\ x ∈ V2.syllabify w.
Proof.
  induction words as [|w words IH]; intros out; cbn [V2.syllable_loop].
  - auto.
  - intros H. destruct (IH _ H) as [Hin|(w' & Hw' & Hx)].
    + apply elem_of_app in Hin as [Hin|Hin]; [auto|].
      right. exists w. split; [left|exact Hin].
    + right. exists w'. split; [right; exact Hw'|exact Hx].
Qed.

Lemma findall_word_only_elem (text w : string) :
  w ∈ Re.findall Re.word_only text -> all_in Re.word_or_quote w = true.
Proof.
  intros H. apply findall_from_elem in H as (j & gs & rest & Hm & ->).
  apply match_atoms_shape in Hm as [_ Hall].
  unfold Re.word_only in Hall.
  inversion Hall as [|a0 g p0 gs0 [Hg _] Hall0]; subst.
  inversion Hall0; subst. exact Hg.
Qed.

Lemma lstrip_all_space (s : string) :
  all_in Py.isspace s = true -> Py.lstrip s = EmptyString.
Proof.
  induction s as [|a s IH]; [reflexivity|].
  cbn [all_in Py.lstrip]. intros H. apply andb_true_iff in H as [-> H].
  exact (IH H).
Qed.

End SyllableFacts.

(** X16: joining the syllables of the first version gives the word back,
    for every word, the empty one too. *)
Theorem loop_syllabify_round_trip (w : string) :
  Py.join EmptyString (V1.syllabify w) = w.
Proof. apply V1Facts.syllabify_join. Qed.

(** X17: the first version leaves a word without any of aeiouy, small or
    capital, in one piece. *)
Theorem loop_syllabify_vowelless (w : string) :
  w <> EmptyString ->
  no_char_of "aeiouyAEIOUY" w = true ->
  V1.syllabify w = [w].
Proof. apply V1Facts.syllabify_keeps_vowelless. Qed.

(** X18: the first version never returns an empty syllable, and a syllable
    holds no vowel before its last character: every vowel ends one. *)
Theorem loop_syllabify_shape (w syl : string) :
  syl ∈ V1.syllabify w ->
  exists body c,
    syl = body +:+ String c EmptyString /\
    no_char_of "aeiouyAEIOUY" body = true.
Proof.
  unfold V1.syllabify. destruct (negb (Py.truthy w)).
  - intros H. inversion H.
  - intros H.
    pose proof (syllabify_loop_shape w [] EmptyString
                  (List.Forall_nil _) eq_refl)
      as Hall.
    rewrite Forall_forall in Hall. exact (Hall syl H).
Qed.

(** X19: with one of a, e, i, o, u in the word, small or capital, the
    syllables of the regular expression join back into the word. *)
Theorem regex_syllabify_round_trip (w : string) :
  no_char_of "aeiouAEIOU" w = false ->
  Py.join EmptyString (V2.syllabify w) = w.
Proof. apply V2Facts.syllabify_join_vowel. Qed.

(** The characters outside the class [[aeiou]], as [re.I] reads it, are
    on the code points 0..255 those that are none of a, e, i, o, u, small
    or capital. *)
Lemma all_in_non_vowel (w : string) :
  all_in Re.non_vowel_i w = no_char_of "aeiouAEIOU" w.
Proof.
  induction w as [|c w IH]; [reflexivity|].
  cbn [all_in no_char_of]. rewrite IH. reflexivity.
Qed.

(** X20: the regular expression gives no syllable at all to a word none of
    whose characters is in the class [[aeiou]] as [re.I] reads it; y is
    not in that class. *)
Theorem regex_syllabify_vowelless (w : string) :
  all_in Re.non_vowel_i w = true -> V2.syllabify w = [].
Proof.
  rewrite all_in_non_vowel. apply V2Facts.syllabify_drops_vowelless.
Qed.

(** X21: every token of the syllable mode holds a character of the class
    [[aeiou]] as [re.I] reads it, and is made of characters of the class
    [[\w']] only: punctuation is not kept, and a word without a character
    of the vowel class leaves no token. *)
Theorem syllable_mode_token_shape (text tok : string) :
  tok ∈ V2.tokenize_syllabic true text ->
  all_in Re.non_vowel_i tok = false /\
  all_in Re.word_or_quote tok = true.
Proof.
  unfold V2.tokenize_syllabic. intros H.
  apply syllable_loop_elem in H as [H|(w & Hw & Hx)]; [inversion H|].
  destruct (syllabify_elem w tok Hx) as [Hv Hc].
  split; [rewrite all_in_non_vowel; exact Hv|]. apply Hc.
  exact (findall_word_only_elem text w Hw).
Qed.

(** X22: a text of white space only gives no token, in either version and
    either mode. *)
Theorem blank_text_has_no_tokens (raw : string) :
  all_in Py.isspace raw = true ->
  tokens_of V1.tokenize_syllabic raw = [] /\
  tokens_of (V2.tokenize_syllabic false) raw = [] /\
  tokens_of (V2.tokenize_syllabic true) raw = [].
Proof.
  intros H. unfold tokens_of, Py.strip.
  rewrite (lstrip_all_space raw H). repeat split.
Qed.

(** ** More concrete runs *)

Lemma ingest_without_tokens_witness :
  exists e,
    run_calls V1.tokenize_syllabic new_engine
      [Ingest "a.txt" "one two"; VerifyAll] = Some e /\
    (is_Some (sources e !! "b.txt") ->
     ingest V1.tokenize_syllabic e "b.txt" " ... " = Some e) /\
    (sources e !! "b.txt" = None ->
     exists e',
       ingest V1.tokenize_syllabic e "b.txt" " ... " = Some e' /\
       sources e' !! "b.txt" = Some [] /\
       clusters e' !! "b.txt" = Some [] /\
       scan_complete e' "b.txt" = Some (false, e') /\
       dump e' "b.txt" = Some EmptyString /\
       forall complete, log_row_of e' "b.txt" complete = None).
Proof.
  apply (ingest_without_tokens V1.tokenize_syllabic
           [Ingest "a.txt" "one two"; VerifyAll] "b.txt" " ... ").
  vm_compute. reflexivity.
Defined.

Lemma word_mode_token_shape_witness :
  exists base punc,
    "world." = base +:+ punc /\
    base <> EmptyString /\
    all_in Re.word_or_quote base = true /\
    all_in Re.punct punc = true.
Proof.
  apply (word_mode_token_shape "hello world. bye!" "world.").
  apply list_elem_of_lookup. exists 1. vm_compute. reflexivity.
Defined.

Lemma loop_syllabify_vowelless_witness : V1.syllabify "nth" = ["nth"].
Proof.
  apply (loop_syllabify_vowelless "nth"); [discriminate|reflexivity].
Defined.

Lemma loop_syllabify_shape_witness :
  exists body c,
    "stre" = body +:+ String c EmptyString /\
    no_char_of "aeiouyAEIOUY" body = true.
Proof.
  apply (loop_syllabify_shape "strength" "stre").
  apply list_elem_of_lookup. exists 0. vm_compute. reflexivity.
Defined.

Lemma regex_syllabify_round_trip_witness :
  Py.join EmptyString (V2.syllabify "banana") = "banana".
Proof. apply (regex_syllabify_round_trip "banana"). reflexivity. Defined.

Lemma regex_syllabify_vowelless_witness : V2.syllabify "rhythm" = [].
Proof. apply (regex_syllabify_vowelless "rhythm"). reflexivity. Defined.

Lemma syllable_mode_token_shape_witness :
  all_in Re.non_vowel_i "hell" = false /\
  all_in Re.word_or_quote "hell" = true.
Proof.
  apply (syllable_mode_token_shape "hello world." "hell").
  apply list_elem_of_lookup. exists 0. vm_compute. reflexivity.
Defined.

Lemma blank_text_has_no_tokens_witness :
  tokens_of V1.tokenize_syllabic "   " = [] /\
  tokens_of (V2.tokenize_syllabic false) "   " = [] /\
  tokens_of (V2.tokenize_syllabic true) "   " = [].
Proof. apply (blank_text_has_no_tokens "   "). reflexivity. Defined.

(** ** A text ingested twice *)

Section TwiceProperties.

Variable tokenize_syllabic : string -> list string.

(** X23: when a text with a token is ingested a second time into the same
    source, the stream ends on a token the index holds from the first time,
    and [scan_complete] is false for the source. *)
Theorem ingest_twice_fails_scan (cs : list call) (source raw : string) :
  flat_map tokenize_syllabic (Py.split "010" (Py.strip raw)) <> [] ->
  exists e e1 e2,
    run_calls tokenize_syllabic new_engine cs = Some e /\
    ingest tokenize_syllabic e source raw = Some e1 /\
    ingest tokenize_syllabic e1 source raw = Some e2 /\
    scan_complete e2 source = Some (false, e2).
Proof.
  intros Hne.
  destruct (reached_full tokenize_syllabic cs) as (e & Hrun & Hfull).
  destruct (ingest_full tokenize_syllabic e source raw Hfull)
    as (e1 & Hing1 & Hfull1 & Hs1 & _).
  destruct (ingest_full tokenize_syllabic e1 source raw Hfull1)
    as (e2 & Hing2 & Hfull2 & Hs2 & _).
  exists e, e1, e2. repeat (split; [assumption|]).
  destruct (scan_complete_full e2 source Hfull2) as (b & Hscan & Hb).
  destruct b; [exfalso|exact Hscan].
  destruct (proj1 Hb eq_refl) as (toks & lst & Htoks & Hlast & Hmin).
  unfold tokens_of in Hs1, Hs2.
  set (T := flat_map tokenize_syllabic (Py.split "010" (Py.strip raw))) in *.
  set (old := default [] (sources e !! source)) in *.
  rewrite Hs2, lookup_insert_eq, Hs1, lookup_insert_eq in Htoks.
  cbn in Htoks. injection Htoks as <-.
  assert (0 < length T) as HT by (destruct T; [congruence|cbn; lia]).
  rewrite last_lookup in Hlast.
  rewrite !length_app in Hlast, Hmin.
  rewrite lookup_app_r in Hlast by (rewrite length_app; lia).
  rewrite length_app in Hlast.
  apply (Hmin (length old + (length T - 1))); [lia|].
  rewrite lookup_app_l by (rewrite length_app; lia).
  rewrite lookup_app_r by lia.
  rewrite <- Hlast. f_equal. lia.
Qed.

End TwiceProperties.

Lemma ingest_twice_fails_scan_witness :
  exists e e1 e2,
    run_calls (V2.tokenize_syllabic false) new_engine [] = Some e /\
    ingest (V2.tokenize_syllabic false) e "a.txt" "one two three" = Some e1 /\
    ingest (V2.tokenize_syllabic false) e1 "a.txt" "one two three"
    = Some e2 /\
    scan_complete e2 "a.txt" = Some (false, e2).
Proof.
  apply (ingest_twice_fails_scan (V2.tokenize_syllabic false) []
           "a.txt" "one two three").
  vm_compute. discriminate.
Defined.
